(** * The ClickHouse output of gohangout: buffering, schema defaults, type
      coercion and transactional batch writes.

    A shallow embedding of [output/clickhouse_output.go].  Go values of type
    [interface{}] are a tagged union, Go maps are [gmap]s, [glog.Fatal] is an
    explicit outcome, and the database driver is a record of oracles that
    answer each call. *)

From Stdlib Require Import ZArith Ascii String Floats.SpecFloat.
From stdpp Require Import gmap strings list fin_maps.

Set Warnings "-register-all".

Local Open Scope Z_scope.

(** ** Outcomes of a call *)

(** [glog.Fatal] and [glog.Fatalf] log and end the process with [os.Exit];
    deferred calls do not run.  A nil dereference or a failed type assertion
    panics. *)
Inductive result (A : Type) : Type :=
  | Ok (a : A)
  | Fatal
  | Panic.
Arguments Ok {A} a.
Arguments Fatal {A}.
Arguments Panic {A}.

#[global] Instance result_ret : MRet result := λ A a, Ok a.
#[global] Instance result_bind : MBind result := λ A B k r,
  match r with
  | Ok a => k a
  | Fatal => Fatal
  | Panic => Panic
  end.

(** ** Loosely typed values *)

(** The element type of a [clickhouse.Array] built from an empty Go slice. *)
Inductive goElem :=
  | EString | EUint8 | EUint16 | EUint32 | EUint64
  | EInt8 | EInt16 | EInt32 | EInt64 | EFloat32 | EFloat64.

(** The dynamic types an [interface{}] holds in this program. *)
Inductive value :=
  | VNil
  | VBool (b : bool)
  | VString (s : string)
  | VNumber (lit : string)            (* json.Number *)
  | VInt (n : Z)                      (* int *)
  | VInt64 (n : Z)
  | VUint64 (n : Z)
  | VFloat32 (f : spec_float)
  | VFloat64 (f : spec_float)
  | VTime (sec nsec : Z)              (* time.Unix(sec, nsec) *)
  | VArray (elem : goElem) (items : list value)  (* clickhouse.Array *)
  | VSlice (items : list value).      (* []interface{} *)

(** A record handed to [Emit]: [map[string]interface{}]. *)
Abbreviation Event := (gmap string value).

(** ** strconv *)

Module strconv.

Inductive errKind :=
  | ErrSyntax
  | ErrRange
  | ErrBitSize (bitSize : Z).       (* "invalid bit size N" *)

Record NumError := { Func : string; Num : string; Err : errKind }.

Definition syntaxError (fn str : string) : NumError :=
  {| Func := fn; Num := str; Err := ErrSyntax |}.
Definition rangeError (fn str : string) : NumError :=
  {| Func := fn; Num := str; Err := ErrRange |}.
Definition bitSizeError (fn str : string) (bitSize : Z) : NumError :=
  {| Func := fn; Num := str; Err := ErrBitSize bitSize |}.

Definition IntSize : Z := 64.
Definition maxUint64 : Z := 2 ^ 64 - 1.

Definition uint64 (z : Z) : Z := z mod 2 ^ 64.
Definition int64 (z : Z) : Z := (z + 2 ^ 63) mod 2 ^ 64 - 2 ^ 63.

Definition byte_of (c : ascii) : Z := Z.of_N (N_of_ascii c).

(** [lower(c) = c | ('x' - 'X')] *)
Definition lower (c : Z) : Z := Z.lor c 32.

(** The digit loop of [ParseUint] at base 10: [n] is the accumulator, the
    result is the value with the error kind, if any. *)
Fixpoint digits (s : string) (maxVal n : Z) : Z * option errKind :=
  match s with
  | EmptyString => (n, None)
  | String ch rest =>
      let c := byte_of ch in
      let d :=
        if (48 <=? c) && (c <=? 57) then Some (c - 48)
        else if (97 <=? lower c) && (lower c <=? 122)
             then Some (lower c - 97 + 10)
        else None in
      match d with
      | None => (0, Some ErrSyntax)
      | Some d =>
          if 10 <=? d then (0, Some ErrSyntax)
          else if maxUint64 / 10 + 1 <=? n then (maxVal, Some ErrRange)
          else
            let n := uint64 (n * 10) in
            let n1 := uint64 (n + d) in
            if (n1 <? n) || (maxVal <? n1) then (maxVal, Some ErrRange)
            else digits rest maxVal n1
      end
  end.

(** [strconv.ParseUint(s, 10, bitSize)].  The program passes base 10 at
    every call, so the prefix and underscore handling of base 0 is left
    out. *)
Definition ParseUint (s : string) (bitSize : Z) : Z * option NumError :=
  if String.eqb s "" then (0, Some (syntaxError "ParseUint" s))
  else
    let s0 := s in
    if (bitSize <? 0) || (64 <? bitSize)
    then (0, Some (bitSizeError "ParseUint" s0 bitSize))
    else
      let bitSize := if bitSize =? 0 then IntSize else bitSize in
      let maxVal := uint64 (uint64 (Z.shiftl 1 bitSize) - 1) in
      match digits s maxVal 0 with
      | (n, None) => (n, None)
      | (n, Some k) => (n, Some {| Func := "ParseUint"; Num := s0; Err := k |})
      end.

Definition is_range (k : errKind) : bool :=
  match k with ErrRange => true | _ => false end.

(** [strconv.ParseInt(s, 10, bitSize)]. *)
Definition ParseInt (s : string) (bitSize : Z) : Z * option NumError :=
  if String.eqb s "" then (0, Some (syntaxError "ParseInt" s))
  else
    let s0 := s in
    let '(neg, s) :=
      match s with
      | String "+" rest => (false, rest)
      | String "-" rest => (true, rest)
      | _ => (false, s)
      end in
    let '(un, err) := ParseUint s bitSize in
    if match err with Some e => negb (is_range (Err e)) | None => false end
    then (0, (λ e, {| Func := "ParseInt"; Num := s0; Err := Err e |}) <$> err)
    else
      let bitSize := if bitSize =? 0 then IntSize else bitSize in
      let cutoff := uint64 (Z.shiftl 1 (bitSize - 1)) in
      if negb neg && (cutoff <=? un)
      then (int64 (cutoff - 1), Some (rangeError "ParseInt" s0))
      else if neg && (cutoff <? un)
      then (int64 (- int64 cutoff), Some (rangeError "ParseInt" s0))
      else (if neg then int64 (- int64 un) else int64 un, None).

(** [strconv.ParseFloat(s, bitSize)] is taken as given: the float and the
    error, if any.  The result is a float64 also for bit size 32. *)
Definition ParseFloat_t : Type := string → Z → spec_float * option NumError.

End strconv.

(** ** Type coercion: [convertCkType] *)

Section Coercion.

Context (ParseFloat : strconv.ParseFloat_t).

(** What an inner type switch of [convertCkType] does: it returns from the
    function, or control leaves the switch with the named result [err]
    as the last parse set it. *)
Inductive switched :=
  | Returned (out : value)
  | Left (err : option strconv.NumError).

Definition parsed {A} (mk : A → value) (r : A * option strconv.NumError)
  : switched :=
  match r with
  | (out, None) => Returned (mk out)
  | (_, Some e) => Left (Some e)
  end.

(** The type switch of a signed integer column. *)
Definition switchInt (bitSize : Z) (val : value) : switched :=
  match val with
  | VNumber lit => parsed VInt64 (strconv.ParseInt lit bitSize)
  | VString s => parsed VInt64 (strconv.ParseInt s bitSize)
  | VBool b => Returned (VInt (if b then 1 else 0))
  | _ => Left None
  end.

(** The type switch of an unsigned integer column. *)
Definition switchUint (bitSize : Z) (val : value) : switched :=
  match val with
  | VNumber lit => parsed VUint64 (strconv.ParseUint lit bitSize)
  | VString s => parsed VUint64 (strconv.ParseUint s bitSize)
  | VBool b => Returned (VInt (if b then 1 else 0))
  | _ => Left None
  end.

Definition float_zero : spec_float := S754_zero false.
Definition float_one : spec_float := S754_finite false 1 0.

(** The type switch of a float or decimal column; [mk] is the Go type of
    the constant a boolean yields, [float32] or [float64]. *)
Definition switchFloat (bitSize : Z) (mk : spec_float → value) (val : value)
  : switched :=
  match val with
  | VNumber lit => parsed VFloat64 (ParseFloat lit bitSize)
  | VString s => parsed VFloat64 (ParseFloat s bitSize)
  | VBool b => Returned (mk (if b then float_one else float_zero))
  | _ => Left None
  end.

(** [convertCkType(ckType, val) (out, err)].  Every return has a nil
    [err]; a parse error ends in [glog.Fatalf]. *)
Definition convertCkType (ckType : string) (val : value)
  : result (value * option strconv.NumError) :=
  let sw :=
    if String.eqb ckType "Int32" then switchInt 32 val
    else if String.eqb ckType "UInt32" then switchUint 32 val
    else if String.eqb ckType "Int16" then switchInt 16 val
    else if String.eqb ckType "UInt16" then switchUint 16 val
    else if String.eqb ckType "Float32" || String.eqb ckType "Decimal32"
    then switchFloat 32 VFloat32 val
    else if String.eqb ckType "Int8" then switchInt 8 val
    else if String.eqb ckType "UInt8" then switchUint 8 val
    else if String.eqb ckType "Int64" then switchInt 64 val
    else if String.eqb ckType "UInt64" then switchUint 64 val
    else if String.eqb ckType "Float64" || String.eqb ckType "Decimal64"
    then switchFloat 64 VFloat64 val
    else if String.eqb ckType "Int256" then switchInt 256 val
    else if String.eqb ckType "UInt256" then switchUint 256 val
    else Left None in
  match sw with
  | Returned out => Ok (out, None)
  | Left (Some e) => Fatal   (* "convertCkType parse default value" *)
  | Left None => Ok (val, None)
  end.

End Coercion.

(** ** The host selector *)

(** A replica handle, [*sql.DB]: the position of the replica among the
    reachable ones. *)
Definition DB : Type := nat.

(** Modelled from the spec: the round-robin [HostSelector] of the output
    package is not part of this file.  It holds the ordered replica handles
    and a cursor; [Next] returns the handle at the cursor and advances the
    cursor cyclically, [Size] is the replica count. *)
Record RRHostSelector := { hosts : list DB; index : nat }.

Definition Size (s : RRHostSelector) : nat := length (hosts s).

Definition Next (s : RRHostSelector) : option DB * RRHostSelector :=
  (hosts s !! index s,
   {| hosts := hosts s; index := (S (index s) `mod` length (hosts s))%nat |}).
Arguments Next : simpl never.

(** ** The database driver *)

(** The result set of [db.Query]: [rows.Columns()] ([None] when it fails)
    and, row by row, what [rows.Scan] stores into one string per column
    ([None] when the scan fails). *)
Record sqlRows := {
  Columns : option (list string);
  Scanned : list (option (list string));
}.

(** The driver answers each call.  The answers to the calls of a write
    depend on how many driver calls were made before, so that any pattern of
    failures over time is an instance. *)
Record sqlDriver := {
  Query : DB → string → option sqlRows;          (* None: an error *)
  BeginFails : nat → DB → bool;
  PrepareFails : nat → DB → string → bool;
  ExecFails : nat → DB → list value → bool;
  CommitFails : nat → DB → bool;
}.

(** ** The schema cache *)

Record rowDesc := {
  Name : string;
  Type_ : string;
  DefaultType : string;
  DefaultExpression : string;
}.

(** The [descMap] of one described row: column header to scanned value,
    with the subtype list of an enumerated type cut off. *)
Fixpoint descMapOf (columns values : list string) (m : gmap string string)
  : gmap string string :=
  match columns, values with
  | c :: columns, value :: values =>
      let value :=
        if String.eqb c "type" then
          if String.prefix "Enum16" value then "Enum16"
          else if String.prefix "Enum8" value then "Enum8"
          else value
        else value in
      descMapOf columns values (<[c := value]> m)
  | _, _ => m
  end.

(** [json.Marshal] of the map followed by [json.Unmarshal] into a
    [rowDesc]: each field takes the value under its tag, or stays empty.
    Headers are taken in the lower case in which the store sends them. *)
Definition rowDescOf (m : gmap string string) : rowDesc :=
  {| Name := default "" (m !! "name");
     Type_ := default "" (m !! "type");
     DefaultType := default "" (m !! "default_type");
     DefaultExpression := default "" (m !! "default_expression") |}.

(** The loop over [rows.Next()]. *)
Fixpoint scanRows (columns : list string) (rows : list (option (list string)))
    (desc : gmap string rowDesc) : result (gmap string rowDesc) :=
  match rows with
  | [] => Ok desc
  | None :: _ => Fatal                        (* "scan rows error" *)
  | Some values :: rows =>
      let rowDesc := rowDescOf (descMapOf columns values ∅) in
      scanRows columns rows (<[Name rowDesc := rowDesc]> desc)
  end.

(** The loop of [setTableDesc] with [n] iterations left.  When it runs out,
    the function ends after the loop with [c.desc] as it was made: empty. *)
Fixpoint setTableDesc_loop (drv : sqlDriver) (query : string) (n : nat)
    (sel : RRHostSelector) : result (gmap string rowDesc * RRHostSelector) :=
  match n with
  | O => Ok (∅, sel)
  | S n =>
      let '(nextdb, sel) := Next sel in
      match nextdb with
      | None => Panic                          (* nextdb.( *sql.DB) on nil *)
      | Some db =>
          match Query drv db query with
          | None => setTableDesc_loop drv query n sel      (* continue *)
          | Some rows =>
              match Columns rows with
              | None => Fatal                 (* "could not get columns" *)
              | Some columns =>
                  desc ← scanRows columns (Scanned rows) ∅;
                  Ok (desc, sel)
              end
          end
      end
  end.

Definition setTableDesc (drv : sqlDriver) (table : string)
    (sel : RRHostSelector) : result (gmap string rowDesc * RRHostSelector) :=
  setTableDesc_loop drv ("desc table " +:+ table) (Size sel) sel.

(** ** Column defaults: [setColumnDefault] *)

Section Defaults.

Context (ParseFloat : strconv.ParseFloat_t).

(** The first switch of the loop body: the literal of a DEFAULT column,
    nil for a column without default, fatal for every other kind. *)
Definition defaultLiteral (d : rowDesc) : result (option string) :=
  if String.eqb (DefaultType d) "DEFAULT" then Ok (Some (DefaultExpression d))
  else if String.eqb (DefaultType d) "MATERIALIZED" then Fatal
  else if String.eqb (DefaultType d) "ALIAS" then Fatal
  else if String.eqb (DefaultType d) "" then Ok None
  else Fatal.

Definition oneOf (s : string) (l : list string) : bool :=
  existsb (String.eqb s) l.

(** The second switch: the entry the column gets in [c.defaultValue], or
    none for an unsupported type (logged, [continue]). *)
Definition typeDefault (ty : string) (defaultValue : option string)
  : result (option value) :=
  if oneOf ty ["String"; "LowCardinality(String)"] then
    match defaultValue with
    | None => Ok (Some (VString ""))
    | Some lit => Ok (Some (VString lit))
    end
  else if oneOf ty ["Date"; "DateTime"; "DateTime64"] then
    Ok (Some (VTime 0 0))
  else if oneOf ty ["UInt8"; "UInt16"; "UInt32"; "UInt64";
                    "Int8"; "Int16"; "Int32"; "Int64"] then
    match defaultValue with
    | None => Ok (Some (VInt 0))
    | Some lit =>
        match strconv.ParseInt lit 64 with
        | (i, None) => Ok (Some (VInt64 i))
        | (_, Some e) => Fatal              (* "parse default value" *)
        end
    end
  else if oneOf ty ["Float32"; "Float64"] then
    match defaultValue with
    | None => Ok (Some (VFloat32 float_zero))
    | Some lit =>
        match ParseFloat lit 64 with
        | (i, None) => Ok (Some (VFloat64 i))
        | (_, Some e) => Fatal              (* "parse default value" *)
        end
    end
  else if String.eqb ty "IPv4" then Ok (Some (VString "0.0.0.0"))
  else if String.eqb ty "IPv6" then Ok (Some (VString "::"))
  else if oneOf ty ["Array(String)"; "Array(IPv4)"; "Array(IPv6)";
                    "Array(Date)"; "Array(DateTime)"] then
    Ok (Some (VArray EString []))
  else if String.eqb ty "Array(UInt8)" then Ok (Some (VArray EUint8 []))
  else if String.eqb ty "Array(UInt16)" then Ok (Some (VArray EUint16 []))
  else if String.eqb ty "Array(UInt32)" then Ok (Some (VArray EUint32 []))
  else if String.eqb ty "Array(UInt64)" then Ok (Some (VArray EUint64 []))
  else if String.eqb ty "Array(Int8)" then Ok (Some (VArray EInt8 []))
  else if String.eqb ty "Array(Int16)" then Ok (Some (VArray EInt16 []))
  else if String.eqb ty "Array(Int32)" then Ok (Some (VArray EInt32 []))
  else if String.eqb ty "Array(Int64)" then Ok (Some (VArray EInt64 []))
  else if String.eqb ty "Array(Float32)" then Ok (Some (VArray EFloat32 []))
  else if String.eqb ty "Array(Float64)" then Ok (Some (VArray EFloat64 []))
  else if String.eqb ty "Enum16" then Ok (Some (VString ""))
  else if String.eqb ty "Enum8" then Ok (Some (VString ""))
  else Ok None.

(** One iteration of the loop over [c.desc]. *)
Definition columnDefault (columnName : string) (d : rowDesc)
    (acc : result (gmap string value)) : result (gmap string value) :=
  defaultValue ← acc;
  lit ← defaultLiteral d;
  entry ← typeDefault (Type_ d) lit;
  Ok (match entry with
      | Some v => <[columnName := v]> defaultValue
      | None => defaultValue
      end).

(** The loop over [c.desc], after [setTableDesc] has filled it.  Go visits
    the columns in no fixed order; every column writes its own key and any
    fatal column ends the process, so the order does not show. *)
Definition columnDefaults (desc : gmap string rowDesc)
  : result (gmap string value) :=
  map_fold columnDefault (Ok ∅) desc.

Definition setColumnDefault (drv : sqlDriver) (table : string)
    (sel : RRHostSelector)
  : result (gmap string rowDesc * gmap string value * RRHostSelector) :=
  '(desc, sel) ← setTableDesc drv table sel;
  defaultValue ← columnDefaults desc;
  Ok (desc, defaultValue, sel).

End Defaults.

(** ** The output and its start *)

Record ClickhouseOutput := {
  bulk_actions : Z;
  fields : list string;
  table : string;
  fieldsLength : nat;
  query : string;
  desc : gmap string rowDesc;
  defaultValue : gmap string value;
  bulkChan : list (list Event);       (* queued batches, oldest first *)
  concurrent : Z;                     (* workers, and the channel's capacity *)
  events : list Event;
  execution_id : Z;
  dbSelector : RRHostSelector;
}.

Definition set_events (c : ClickhouseOutput) (evs : list Event) :=
  {| bulk_actions := bulk_actions c; fields := fields c; table := table c;
     fieldsLength := fieldsLength c; query := query c; desc := desc c;
     defaultValue := defaultValue c; bulkChan := bulkChan c;
     concurrent := concurrent c; events := evs;
     execution_id := execution_id c; dbSelector := dbSelector c |}.

Definition set_bulkChan (c : ClickhouseOutput) (ch : list (list Event)) :=
  {| bulk_actions := bulk_actions c; fields := fields c; table := table c;
     fieldsLength := fieldsLength c; query := query c; desc := desc c;
     defaultValue := defaultValue c; bulkChan := ch;
     concurrent := concurrent c; events := events c;
     execution_id := execution_id c; dbSelector := dbSelector c |}.

Definition set_execution (c : ClickhouseOutput) (id : Z) (sel : RRHostSelector) :=
  {| bulk_actions := bulk_actions c; fields := fields c; table := table c;
     fieldsLength := fieldsLength c; query := query c; desc := desc c;
     defaultValue := defaultValue c; bulkChan := bulkChan c;
     concurrent := concurrent c; events := events c;
     execution_id := id; dbSelector := sel |}.

(** The configuration as [newClickhouseOutput] has read it, defaults
    applied. *)
Record config := {
  cfg_table : string;
  cfg_bulk_actions : Z;
  cfg_concurrent : Z;
}.

(** The double quote of [fmt.Sprintf(`"%s"`, columnName)]. *)
Definition dquote : string := String (ascii_of_nat 34) EmptyString.

Definition insertQuery (table : string) (fields : list string) : string :=
  "INSERT INTO " +:+ table +:+ " ("
    +:+ String.concat "," ((λ f, dquote +:+ f +:+ dquote) <$> fields)
    +:+ ") VALUES ("
    +:+ String.concat "," (replicate (length fields) "?") +:+ ")".

Section Startup.

Context (ParseFloat : strconv.ParseFloat_t).

(** [newClickhouseOutput] from the point where the reachable replicas
    [dbs] are known. *)
Definition newClickhouseOutput (drv : sqlDriver) (cfg : config)
    (dbs : list DB) : result ClickhouseOutput :=
  match dbs with
  | [] => Fatal                              (* "no available host" *)
  | _ =>
      let sel := {| hosts := dbs; index := 0 |} in
      '(desc, defaultValue, sel) ←
        setColumnDefault ParseFloat drv (cfg_table cfg) sel;
      let fields := (map_to_list desc).*1 in
      if cfg_concurrent cfg <? 0 then Panic    (* make(chan, negative) *)
      else
        Ok {| bulk_actions := cfg_bulk_actions cfg;
              fields := fields;
              table := cfg_table cfg;
              fieldsLength := length fields;
              query := insertQuery (cfg_table cfg) fields;
              desc := desc;
              defaultValue := defaultValue;
              bulkChan := [];
              concurrent := cfg_concurrent cfg;
              events := [];
              execution_id := 0;
              dbSelector := sel |}
  end.

End Startup.

(** ** The buffer and its two triggers *)

(** [Emit] between [Lock] and [Unlock]: the new output and the batch the
    caller then sends on [bulkChan], if the buffer reached [bulk_actions].
    [make] panics on a negative capacity. *)
Definition Emit_locked (c : ClickhouseOutput) (event : Event)
  : result (ClickhouseOutput * option (list Event)) :=
  let evs := events c ++ [event] in
  if Z.of_nat (length evs) <? bulk_actions c then Ok (set_events c evs, None)
  else if bulk_actions c <? 0 then Panic
  else Ok (set_events c [], Some evs).

(** [flush] up to its send: the batch it sends while it holds the lock, if
    the buffer is not empty. *)
Definition flush_locked (c : ClickhouseOutput)
  : result (ClickhouseOutput * option (list Event)) :=
  if 0 <? Z.of_nat (length (events c)) then
    if bulk_actions c <? 0 then Panic
    else Ok (set_events c [], Some (events c))
  else Ok (c, None).

(** [c.bulkChan <- events]: possible when the channel has room. *)
Definition send (c : ClickhouseOutput) (batch : list Event)
  : option ClickhouseOutput :=
  if Z.of_nat (length (bulkChan c)) <? concurrent c
  then Some (set_bulkChan c (bulkChan c ++ [batch]))
  else None.

(** The output with the goroutines around it: the timer inside [flush],
    holding the lock with the batch it is sending; the producers that left
    the lock and are at their send; the batches the workers received. *)
Record system := {
  out : ClickhouseOutput;
  flushing : option (list Event);
  sending : list (list Event);
  taken : list (list Event);
}.

Inductive label :=
  | LEmit (e : Event)      (* a producer runs Emit up to Unlock *)
  | LSend (i : nat)        (* the i-th waiting producer's send goes through *)
  | LTick                  (* the timer fires: flush takes the lock *)
  | LTickSend              (* flush's send goes through, the lock is freed *)
  | LRecv.                 (* a worker receives from bulkChan *)

(** One step; [None] when the goroutine cannot move (the lock is held, the
    channel is full or empty) or the process has panicked. *)
Definition step (s : system) (l : label) : option system :=
  match l with
  | LEmit e =>
      match flushing s, Emit_locked (out s) e with
      | None, Ok (c, b) =>
          Some {| out := c; flushing := None;
                  sending := sending s ++ option_list b; taken := taken s |}
      | _, _ => None
      end
  | LSend i =>
      match sending s !! i with
      | Some b =>
          c ← send (out s) b;
          Some {| out := c; flushing := flushing s;
                  sending := delete i (sending s); taken := taken s |}
      | None => None
      end
  | LTick =>
      match flushing s, flush_locked (out s) with
      | None, Ok (c, b) =>
          Some {| out := c; flushing := b;
                  sending := sending s; taken := taken s |}
      | _, _ => None
      end
  | LTickSend =>
      match flushing s with
      | Some b =>
          c ← send (out s) b;
          Some {| out := c; flushing := None;
                  sending := sending s; taken := taken s |}
      | None => None
      end
  | LRecv =>
      match bulkChan (out s) with
      | b :: rest =>
          Some {| out := set_bulkChan (out s) rest; flushing := flushing s;
                  sending := sending s; taken := taken s ++ [b] |}
      | [] => None
      end
  end.

Fixpoint run (s : system) (ls : list label) : option system :=
  match ls with
  | [] => Some s
  | l :: ls => s ← step s l; run s ls
  end.

Definition start (c : ClickhouseOutput) : system :=
  {| out := c; flushing := None; sending := []; taken := [] |}.

(** The records submitted along a run, in order. *)
Definition submitted (ls : list label) : list Event :=
  ls ≫= λ l, match l with LEmit e => [e] | _ => [] end.

(** Every batch that left the buffer: received, queued or being sent. *)
Definition batches (s : system) : list (list Event) :=
  taken s ++ bulkChan (out s) ++ option_list (flushing s) ++ sending s.

(** ** Writing a batch: [innerFlush] *)

(** The calls made to the driver, and the rows the replicas hold.  A row is
    in [store] once the transaction that executed it has committed. *)
Inductive call :=
  | CBegin (db : DB)
  | CPrepare (db : DB)
  | CExec (db : DB) (args : list value)
  | CCommit (db : DB)
  | CClose (db : DB)                  (* stmt.Close() *)
  | CRollback (db : DB).

Record world := {
  calls : list call;
  store : list (DB * list value);
}.

Definition called (w : world) (k : call) : world :=
  {| calls := calls w ++ [k]; store := store w |}.

(** The driver's clock: the number of calls made so far. *)
Definition clock (w : world) : nat := length (calls w).

(** How [innerFlush] ends. *)
Inductive outcome :=
  | Committed
  | PrepareFailed
  | ExecFailed (row : nat)
  | CommitFailed
  | Exited                            (* glog.Fatalf inside convertCkType *)
  | Panicked.

Section Flush.

Context (ParseFloat : strconv.ParseFloat_t).

(** The body of the loop over [c.fields]: the argument for one column. *)
Definition argFor (c : ClickhouseOutput) (event : Event) (field : string)
  : result value :=
  match event !! field with
  | Some VNil | None =>
      match defaultValue c !! field with
      | Some v3 => Ok v3
      | None => Ok (VString "")               (* this should not happen *)
      end
  | Some v1 =>
      match desc c !! field with
      | None => Panic                         (* ct.Type on a nil ct *)
      | Some ct =>
          '(v2, err) ← convertCkType ParseFloat (Type_ ct) v1;
          Ok (match err with None => v2 | Some _ => v1 end)
      end
  end.

(** The loop over [c.fields], writing [args[i]]. *)
Fixpoint fillArgs (c : ClickhouseOutput) (event : Event)
    (fs : list string) (i : nat) (args : list value)
  : result (list value) :=
  match fs with
  | [] => Ok args
  | field :: fs =>
      v ← argFor c event field;
      if decide (i < length args)%nat
      then fillArgs c event fs (S i) (<[i := v]> args)
      else Panic                              (* index out of range *)
  end.

(** The positional argument row of one record. *)
Definition buildArgs (c : ClickhouseOutput) (event : Event)
  : result (list value) :=
  fillArgs c event (fields c) 0 (replicate (fieldsLength c) VNil).

(** The loop over the batch inside the transaction on [db]: [i] is the
    position of the next record, [tx] the rows executed so far.  The
    result is the way the loop was left, or the rows to commit. *)
Fixpoint execRows (drv : sqlDriver) (c : ClickhouseOutput) (db : DB)
    (evs : list Event) (i : nat) (tx : list (list value)) (w : world)
  : (outcome + list (list value)) * world :=
  match evs with
  | [] => (inr tx, w)
  | event :: evs =>
      match buildArgs c event with
      | Fatal => (inl Exited, w)
      | Panic => (inl Panicked, w)
      | Ok args =>
          let fails := ExecFails drv (clock w) db args in
          let w := called w (CExec db args) in
          if fails then (inl (ExecFailed i), w)
          else execRows drv c db evs (S i) (tx ++ [args]) w
      end
  end.

(** The deferred calls, last deferred first. *)
Definition deferred (db : DB) (stmt : bool) (w : world) : world :=
  called (if stmt then called w (CClose db) else w) (CRollback db).

(** [innerFlush] from the point where [Begin] returned a transaction on
    [db].  [os.Exit] runs no deferred call; every other way out does. *)
Definition writeBatch (drv : sqlDriver) (c : ClickhouseOutput) (db : DB)
    (evs : list Event) (w : world) : outcome * world :=
  let fails := PrepareFails drv (clock w) db (query c) in
  let w := called w (CPrepare db) in
  if fails then (PrepareFailed, deferred db false w)
  else
    match execRows drv c db evs 0 [] w with
    | (inl Exited, w) => (Exited, w)
    | (inl o, w) => (o, deferred db true w)
    | (inr tx, w) =>
        let fails := CommitFails drv (clock w) db in
        let w := called w (CCommit db) in
        if fails then (CommitFailed, deferred db true w)
        else
          (Committed,
           deferred db true
             {| calls := calls w; store := store w ++ (pair db <$> tx) |})
    end.

(** The [for] loop of [innerFlush], with [fuel] iterations allowed:
    [None] when they are used up with no transaction begun. *)
Fixpoint innerFlush_loop (fuel : nat) (drv : sqlDriver)
    (c : ClickhouseOutput) (sel : RRHostSelector) (evs : list Event)
    (w : world) : option (outcome * RRHostSelector * world) :=
  match fuel with
  | O => None
  | S fuel =>
      let '(nextdb, sel) := Next sel in
      match nextdb with
      | None => Some (Panicked, sel, w)        (* nextdb.( *sql.DB) on nil *)
      | Some db =>
          let fails := BeginFails drv (clock w) db in
          let w := called w (CBegin db) in
          if fails then innerFlush_loop fuel drv c sel evs w   (* continue *)
          else
            let '(o, w) := writeBatch drv c db evs w in
            Some (o, sel, w)
      end
  end.

Definition innerFlush (fuel : nat) (drv : sqlDriver) (c : ClickhouseOutput)
    (evs : list Event) (w : world)
  : option (outcome * ClickhouseOutput * world) :=
  let execution_id := strconv.uint64 (execution_id c + 1) in
  '(o, sel, w) ← innerFlush_loop fuel drv c (dbSelector c) evs w;
  Some (o, set_execution c execution_id sel, w).

End Flush.

(** ** The database of the table: [getDatabase] *)

(** [strings.Split(s, sep)] for a separator of one byte. *)
Fixpoint Split (s : string) (sep : ascii) : list string :=
  match s with
  | EmptyString => [EmptyString]
  | String ch rest =>
      if Ascii.eqb ch sep then EmptyString :: Split rest sep
      else
        match Split rest sep with
        | part :: parts => String ch part :: parts
        | [] => [String ch EmptyString]
        end
  end.

Definition getDatabase (table : string) : string :=
  let dbAndTable := Split table "." in
  match dbAndTable with
  | [dbName; _] => dbName                     (* len(dbAndTable) == 2 *)
  | _ => "default"
  end.

(** ** Shutdown: [awaitclose] *)

(** The receive loop at the end of [awaitclose]: each batch still queued is
    taken and handed to an [innerFlush] of its own; the loop ends when the
    channel is empty. *)
Fixpoint drain (ch : list (list Event)) (spawned : list (list Event))
  : list (list Event) :=
  match ch with
  | [] => spawned                              (* default: return *)
  | events :: ch => drain ch (spawned ++ [events])
  end.

(** [awaitclose] up to its wait: the output with buffer and channel
    emptied, and the batches handed to [innerFlush] outside the worker
    pool, the buffered one first. *)
Definition awaitclose (c : ClickhouseOutput)
  : result (ClickhouseOutput * list (list Event)) :=
  if Z.of_nat (length (events c)) <=? 0
  then Ok (set_bulkChan c [], drain (bulkChan c) [])
  else if bulk_actions c <? 0 then Panic      (* make with a negative cap *)
  else Ok (set_bulkChan (set_events c []) [], drain (bulkChan c) [events c]).

(** ** Vocabulary of the statements *)

(** The rows of the coercion table: the column types [convertCkType] has a
    case for, each with the parse it applies to a numeric string. *)
Inductive parse :=
  | PInt (bitSize : Z)
  | PUint (bitSize : Z)
  | PFloat (bitSize : Z).

Definition coercionTable : list (string * parse) :=
  [("Int32", PInt 32); ("UInt32", PUint 32); ("Int16", PInt 16);
   ("UInt16", PUint 16); ("Float32", PFloat 32); ("Decimal32", PFloat 32);
   ("Int8", PInt 8); ("UInt8", PUint 8); ("Int64", PInt 64);
   ("UInt64", PUint 64); ("Float64", PFloat 64); ("Decimal64", PFloat 64);
   ("Int256", PInt 256); ("UInt256", PUint 256)].

Definition coveredTypes : list string := coercionTable.*1.

(** The integer families of 8, 16, 32 and 64 bits. *)
Definition integerTypes : list string :=
  ["Int8"; "Int16"; "Int32"; "Int64"; "UInt8"; "UInt16"; "UInt32"; "UInt64"].

(** What the parse of a table row makes of a string. *)
Definition parseWith (ParseFloat : strconv.ParseFloat_t) (p : parse)
    (s : string) : value * option strconv.NumError :=
  match p with
  | PInt b => prod_map VInt64 id (strconv.ParseInt s b)
  | PUint b => prod_map VUint64 id (strconv.ParseUint s b)
  | PFloat b => prod_map VFloat64 id (ParseFloat s b)
  end.

(** A [ParseFloat] that rejects every literal.  It stands in for the
    library function in the closed examples, none of which reaches a float
    column. *)
Definition rejectFloats : strconv.ParseFloat_t :=
  λ s _, (S754_zero false, Some (strconv.syntaxError "ParseFloat" s)).

(** The type families of the default table, as [setColumnDefault] lists
    them. *)
Definition stringTypes : list string := ["String"; "LowCardinality(String)"].
Definition enumTypes : list string := ["Enum16"; "Enum8"].
Definition temporalTypes : list string := ["Date"; "DateTime"; "DateTime64"].
Definition floatTypes : list string := ["Float32"; "Float64"].
Definition arrayTypes : list (string * goElem) :=
  [("Array(String)", EString); ("Array(IPv4)", EString);
   ("Array(IPv6)", EString); ("Array(Date)", EString);
   ("Array(DateTime)", EString); ("Array(UInt8)", EUint8);
   ("Array(UInt16)", EUint16); ("Array(UInt32)", EUint32);
   ("Array(UInt64)", EUint64); ("Array(Int8)", EInt8);
   ("Array(Int16)", EInt16); ("Array(Int32)", EInt32);
   ("Array(Int64)", EInt64); ("Array(Float32)", EFloat32);
   ("Array(Float64)", EFloat64)].

Definition defaultedTypes : list string :=
  stringTypes ++ temporalTypes ++ integerTypes ++ floatTypes
    ++ ["IPv4"; "IPv6"] ++ arrayTypes.*1 ++ enumTypes.

(** A driver on which every call fails. *)
Definition failingDriver : sqlDriver :=
  {| Query := λ _ _, None;
     BeginFails := λ _ _, true;
     PrepareFails := λ _ _ _, true;
     ExecFails := λ _ _ _, true;
     CommitFails := λ _ _, true |}.

(** The table of the examples: an unsigned identifier, a name, and a
    column of a type outside the default table. *)
Definition exampleDesc : gmap string rowDesc :=
  <["id" := {| Name := "id"; Type_ := "UInt32";
               DefaultType := ""; DefaultExpression := "" |}]>
  (<["name" := {| Name := "name"; Type_ := "String";
                  DefaultType := ""; DefaultExpression := "" |}]>
  (<["tags" := {| Name := "tags"; Type_ := "Map(String, String)";
                  DefaultType := ""; DefaultExpression := "" |}]> ∅)).

(** The output of the examples: capacity 2, one worker, the columns of
    [exampleDesc]; only the identifier has a default registered. *)
Definition exampleOutput : ClickhouseOutput :=
  {| bulk_actions := 2;
     fields := ["id"; "name"; "tags"];
     table := "logs";
     fieldsLength := 3;
     query := insertQuery "logs" ["id"; "name"; "tags"];
     desc := exampleDesc;
     defaultValue := {["id" := VInt 0]};
     bulkChan := [];
     concurrent := 1;
     events := [];
     execution_id := 0;
     dbSelector := {| hosts := [0%nat; 1%nat]; index := 0 |} |}.

Definition exampleEvent (id : string) : Event :=
  <["id" := VNumber id]> (<["name" := VNil]> ∅).

(** Two records fill the buffer and are sent; a third waits for the
    timer. *)
Definition exampleRun : list label :=
  [LEmit (exampleEvent "1"); LEmit (exampleEvent "2"); LSend 0; LRecv;
   LEmit (exampleEvent "3"); LTick; LTickSend; LRecv].

(** The selector after [k] calls of [Next], and the replica the call
    after these returns. *)
Fixpoint advance (k : nat) (sel : RRHostSelector) : RRHostSelector :=
  match k with
  | O => sel
  | S k => advance k (Next sel).2
  end.

Definition replica (sel : RRHostSelector) (k : nat) : option DB :=
  (Next (advance k sel)).1.

(** The world after [Begin] was called on the next [k] replicas. *)
Fixpoint begun (k : nat) (sel : RRHostSelector) (w : world) : world :=
  match k with
  | O => w
  | S k =>
      match (Next sel).1 with
      | Some db => begun k (Next sel).2 (called w (CBegin db))
      | None => w
      end
  end.

(** The rows passed to [Exec] among some calls, in order. *)
Definition execArgs (ks : list call) : list (list value) :=
  ks ≫= λ k, match k with CExec _ args => [args] | _ => [] end.

(** A driver whose first call fails and whose later calls succeed. *)
Definition exampleDriver : sqlDriver :=
  {| Query := λ _ _, None;
     BeginFails := λ t _, bool_decide (t = O);
     PrepareFails := λ t _ _, bool_decide (t = O);
     ExecFails := λ t _ _, bool_decide (t = O);
     CommitFails := λ t _, bool_decide (t = O) |}.

Definition emptyWorld : world := {| calls := []; store := [] |}.

(** Whether the [k]-th coming [Begin] of a write that starts in world [w]
    fails: the calls before it were the [k] failed ones. *)
Definition beginFailsAt (drv : sqlDriver) (sel : RRHostSelector) (w : world)
    (k : nat) : bool :=
  match replica sel k with
  | Some db => BeginFails drv (clock w + k) db
  | None => false
  end.

(** How the loop of [innerFlush] ends when the [k]-th coming [Begin] is the
    first that does not fail. *)
Definition attempt (ParseFloat : strconv.ParseFloat_t) (drv : sqlDriver)
    (c : ClickhouseOutput) (sel : RRHostSelector) (evs : list Event)
    (w : world) (k : nat) : outcome * RRHostSelector * world :=
  match replica sel k with
  | Some db =>
      let '(o, w') :=
        writeBatch ParseFloat drv c db evs (called (begun k sel w) (CBegin db)) in
      (o, advance (S k) sel, w')
  | None => (Panicked, advance (S k) sel, begun k sel w)
  end.

(** What [innerFlush] returns for the end of its loop. *)
Definition finished (c : ClickhouseOutput)
    (r : outcome * RRHostSelector * world)
  : outcome * ClickhouseOutput * world :=
  (r.1.1, set_execution c (strconv.uint64 (execution_id c + 1)) r.1.2, r.2).

(** The number a string of decimal digits writes, continuing from [acc];
    [None] when a byte is not a digit. *)
Fixpoint decimal (s : string) (acc : Z) : option Z :=
  match s with
  | EmptyString => Some acc
  | String ch rest =>
      let c := strconv.byte_of ch in
      if (48 <=? c) && (c <=? 57) then decimal rest (acc * 10 + (c - 48))
      else None
  end.

(** The dynamic types [convertCkType] has a case for. *)
Definition convertible (val : value) : bool :=
  match val with
  | VNumber _ | VString _ | VBool _ => true
  | _ => false
  end.

(** A driver that rejects the [Exec] made as its fourth call and accepts
    every other call. *)
Definition rejectingDriver : sqlDriver :=
  {| Query := λ _ _, None;
     BeginFails := λ _ _, false;
     PrepareFails := λ _ _ _, false;
     ExecFails := λ t _ _, bool_decide (t = 3%nat);
     CommitFails := λ _ _, false |}.

(** What the loop of [setColumnDefault] computes for one column: its
    entry, none, or the end of the process. *)
Definition columnEntry (ParseFloat : strconv.ParseFloat_t) (d : rowDesc)
  : result (option value) :=
  lit ← defaultLiteral d; typeDefault ParseFloat (Type_ d) lit.

(** An output whose field list agrees with its schema. *)
Definition wellFormed (c : ClickhouseOutput) : Prop :=
  fieldsLength c = length (fields c) ∧
  ∀ field, field ∈ fields c → is_Some (desc c !! field).

(** The number of bytes of a string equal to [ch]. *)
Fixpoint occurrences (ch : ascii) (s : string) : nat :=
  match s with
  | EmptyString => O
  | String c rest =>
      ((if Ascii.eqb c ch then 1 else 0) + occurrences ch rest)%nat
  end.

(** The header of the store's answer to a describe query, and an answer
    with four columns. *)
Definition describeHeader : list string :=
  ["name"; "type"; "default_type"; "default_expression"; "comment";
   "codec_expression"; "ttl_expression"].

Definition exampleRows : sqlRows :=
  {| Columns := Some describeHeader;
     Scanned :=
       [Some ["id"; "UInt32"; ""; ""; ""; ""; ""];
        Some ["level"; "Enum8('debug' = 1, 'info' = 2)"; ""; ""; ""; ""; ""];
        Some ["host"; "String"; "DEFAULT"; "'unknown'"; ""; ""; ""];
        Some ["port"; "UInt16"; "DEFAULT"; "8123"; ""; ""; ""]] |}.

(** A driver on which the first replica fails the describe query and the
    second answers it. *)
Definition describingDriver : sqlDriver :=
  {| Query := λ db _, if decide (db = 1%nat) then Some exampleRows else None;
     BeginFails := λ _ _, false;
     PrepareFails := λ _ _ _, false;
     ExecFails := λ _ _ _, false;
     CommitFails := λ _ _, false |}.

Definition exampleConfig : config :=
  {| cfg_table := "logs"; cfg_bulk_actions := 2; cfg_concurrent := 1 |}.

(** Two records fill the buffer and are queued; a third is buffered when
    the shutdown comes. *)
Definition exampleShutdownRun : list label :=
  [LEmit (exampleEvent "1"); LEmit (exampleEvent "2"); LSend 0;
   LEmit (exampleEvent "3")].

(** Two columns with a DEFAULT expression, as the store describes them. *)
Definition literalDesc : gmap string rowDesc :=
  <["host" := {| Name := "host"; Type_ := "String";
                 DefaultType := "DEFAULT";
                 DefaultExpression := "'unknown'" |}]>
  (<["port" := {| Name := "port"; Type_ := "UInt16";
                  DefaultType := "DEFAULT";
                  DefaultExpression := "8123" |}]> ∅).

(** * Properties *)

(** ** Type coercion *)

Section CoercionFacts.

Context (ParseFloat : strconv.ParseFloat_t).

Lemma ParseUint_256 s :
  ∃ e, strconv.ParseUint s 256 = (0, Some e) ∧
       strconv.is_range (strconv.Err e) = false.
Proof.
  unfold strconv.ParseUint. destruct (String.eqb s ""); simpl; eauto.
Qed.

Lemma ParseInt_256 s : ∃ e, strconv.ParseInt s 256 = (0, Some e).
Proof.
  unfold strconv.ParseInt. destruct (String.eqb s ""); [by eauto|].
  match goal with
  | |- context [let '(_, _) := ?m in _] => destruct m as [neg s']
  end.
  destruct (ParseUint_256 s') as (e & -> & He). simpl. rewrite He. simpl.
  eauto.
Qed.

(** C2.  On an [Int256] or [UInt256] column every string, numeric or
    generic, ends the process: the parse is asked for 256 bits, which
    [strconv] refuses for every input, so a valid numeric string is not
    coerced. *)
Theorem convertCkType_256_fatal (s : string) :
  convertCkType ParseFloat "Int256" (VNumber s) = Fatal ∧
  convertCkType ParseFloat "Int256" (VString s) = Fatal ∧
  convertCkType ParseFloat "UInt256" (VNumber s) = Fatal ∧
  convertCkType ParseFloat "UInt256" (VString s) = Fatal.
Proof.
  unfold convertCkType; simpl.
  destruct (ParseInt_256 s) as [e ->], (ParseUint_256 s) as (e' & -> & _).
  done.
Qed.

(** C6.  On each integer column of 8, 16, 32 or 64 bits [true] becomes 1
    and [false] becomes 0; the numeric string 123 becomes the integer 123
    on the 16-bit columns; the numeric string 999 on the 8-bit columns is
    a failure, which ends the process. *)
Theorem convertCkType_examples :
  Forall (λ ty,
    convertCkType ParseFloat ty (VBool true) = Ok (VInt 1, None) ∧
    convertCkType ParseFloat ty (VBool false) = Ok (VInt 0, None))
    integerTypes ∧
  (convertCkType ParseFloat "Int16" (VNumber "123") = Ok (VInt64 123, None) ∧
   convertCkType ParseFloat "Int16" (VString "123") = Ok (VInt64 123, None) ∧
   convertCkType ParseFloat "UInt16" (VNumber "123") = Ok (VUint64 123, None) ∧
   convertCkType ParseFloat "UInt16" (VString "123") = Ok (VUint64 123, None)) ∧
  (convertCkType ParseFloat "Int8" (VNumber "999") = Fatal ∧
   convertCkType ParseFloat "Int8" (VString "999") = Fatal ∧
   convertCkType ParseFloat "UInt8" (VNumber "999") = Fatal ∧
   convertCkType ParseFloat "UInt8" (VString "999") = Fatal).
Proof.
  split; [|split].
  - unfold integerTypes. repeat constructor.
  - repeat split; reflexivity.
  - repeat split; reflexivity.
Qed.

(** C7.  On every column type of the coercion table, a numeric string or
    a generic string whose parse fails ends the process: no value is
    returned in its place. *)
Theorem convertCkType_parse_failure ckType p s :
  (ckType, p) ∈ coercionTable →
  (parseWith ParseFloat p s).2 ≠ None →
  convertCkType ParseFloat ckType (VNumber s) = Fatal ∧
  convertCkType ParseFloat ckType (VString s) = Fatal.
Proof.
  intros Hin Herr. unfold coercionTable in Hin.
  repeat (apply elem_of_cons in Hin as [[= -> ->]|Hin]);
    [..|by apply elem_of_nil in Hin];
    unfold convertCkType; simpl in *;
    match goal with
    | H : (?r).2 ≠ None |- _ => destruct r as [out [e|]]; simpl in *; done
    end.
Qed.

(** A string that parses is returned as the parsed number, with no
    error. *)
Lemma convertCkType_parse_success ckType p s :
  (ckType, p) ∈ coercionTable →
  (parseWith ParseFloat p s).2 = None →
  convertCkType ParseFloat ckType (VNumber s)
    = Ok ((parseWith ParseFloat p s).1, None) ∧
  convertCkType ParseFloat ckType (VString s)
    = Ok ((parseWith ParseFloat p s).1, None).
Proof.
  intros Hin Herr. unfold coercionTable in Hin.
  repeat (apply elem_of_cons in Hin as [[= -> ->]|Hin]);
    [..|by apply elem_of_nil in Hin];
    unfold convertCkType; simpl in *;
    match goal with
    | H : (?r).2 = None |- _ => destruct r as [out [e|]]; simpl in *; done
    end.
Qed.

Lemma eqb_uncovered ckType ty :
  ckType ∉ coveredTypes → ty ∈ coveredTypes → String.eqb ckType ty = false.
Proof.
  intros Hn Hin. destruct (String.eqb_spec ckType ty); [by subst|done].
Qed.

(** C10.  On a column type outside the coercion table every value is
    returned as it came, with no error. *)
Theorem convertCkType_uncovered ckType (val : value) :
  ckType ∉ coveredTypes →
  convertCkType ParseFloat ckType val = Ok (val, None).
Proof.
  intros Hn. unfold convertCkType.
  rewrite !(eqb_uncovered ckType _ Hn)
    by (apply (bool_decide_unpack _); vm_compute; exact I).
  done.
Qed.

End CoercionFacts.

Lemma convertCkType_parse_failure_witness :
  ("Int8", PInt 8) ∈ coercionTable ∧
  (parseWith rejectFloats (PInt 8) "999").2 ≠ None ∧
  convertCkType rejectFloats "Int8" (VNumber "999") = Fatal ∧
  convertCkType rejectFloats "Int8" (VString "999") = Fatal.
Proof.
  assert (H1 : ("Int8", PInt 8) ∈ coercionTable)
    by (unfold coercionTable; repeat constructor).
  assert (H2 : (parseWith rejectFloats (PInt 8) "999").2 ≠ None) by done.
  exact (conj H1 (conj H2
    (convertCkType_parse_failure rejectFloats "Int8" (PInt 8) "999" H1 H2))).
Defined.

Lemma convertCkType_uncovered_witness :
("String" ∉ coveredTypes) ∧
  convertCkType rejectFloats "String" (VString "abc")
    = Ok (VString "abc", None).
Proof.
  assert (H : "String" ∉ coveredTypes)
    by (apply (bool_decide_unpack _); vm_compute; exact I).
  exact (conj H (convertCkType_uncovered rejectFloats "String" (VString "abc") H)).
Defined.

(** ** The schema cache *)

Lemma eqb_outside (l : list string) s t :
  s ∉ l → t ∈ l → String.eqb s t = false.
Proof.
  intros Hn Hin. destruct (String.eqb_spec s t); [by subst|done].
Qed.

Lemma Next_valid sel :
  (index sel < length (hosts sel))%nat →
  ∃ db, Next sel = (Some db, (Next sel).2) ∧
        hosts (Next sel).2 = hosts sel ∧
        (index (Next sel).2 < length (hosts (Next sel).2))%nat.
Proof.
  intros Hlt. destruct (lookup_lt_is_Some_2 _ _ Hlt) as [db Hdb].
  exists db. unfold Next. rewrite Hdb. simpl. repeat split.
  apply Nat.mod_upper_bound. lia.
Qed.

Lemma setTableDesc_loop_all_fail drv q n sel :
  (∀ db, Query drv db q = None) →
  (index sel < length (hosts sel))%nat →
  ∃ sel', setTableDesc_loop drv q n sel = Ok (∅, sel').
Proof.
  intros Hq. revert sel. induction n as [|n IH]; intros sel Hlt.
  - simpl. eauto.
  - destruct (Next_valid sel Hlt) as (db & Hn & _ & Hlt').
    cbn [setTableDesc_loop]. rewrite Hn, Hq. apply IH, Hlt'.
Qed.

Section SchemaFacts.

Context (ParseFloat : strconv.ParseFloat_t).

(** C1.  When the describe query fails on every replica, [setTableDesc]
    returns after its loop with the empty description and the start goes
    on: the output is built with no column, no default and an insert
    statement without fields.  Nothing ends the process. *)
Theorem newClickhouseOutput_without_schema drv cfg dbs :
  dbs ≠ [] →
  0 ≤ cfg_concurrent cfg →
  (∀ db, Query drv db ("desc table " +:+ cfg_table cfg) = None) →
  ∃ c, newClickhouseOutput ParseFloat drv cfg dbs = Ok c ∧
       desc c = ∅ ∧ defaultValue c = ∅ ∧ fields c = [] ∧
       fieldsLength c = O ∧
       query c = insertQuery (cfg_table cfg) [].
Proof.
  intros Hne Hc Hq. unfold newClickhouseOutput.
  destruct dbs as [|db dbs]; [done|].
  unfold setColumnDefault, setTableDesc.
  edestruct (setTableDesc_loop_all_fail drv _ (Size {| hosts := db :: dbs; index := 0 |})
               {| hosts := db :: dbs; index := 0 |} Hq) as [sel' ->];
    [simpl; lia|].
  simpl. unfold columnDefaults. rewrite map_fold_empty. simpl.
  rewrite map_to_list_empty. simpl.
  destruct (Z.ltb_spec (cfg_concurrent cfg) 0); [lia|].
  eexists. repeat split.
Qed.

End SchemaFacts.

Lemma newClickhouseOutput_without_schema_witness :
  ∃ c, newClickhouseOutput rejectFloats failingDriver
         {| cfg_table := "logs"; cfg_bulk_actions := 2; cfg_concurrent := 1 |}
         [0%nat; 1%nat] = Ok c ∧
       desc c = ∅ ∧ defaultValue c = ∅ ∧ fields c = [] ∧
       fieldsLength c = O ∧
       query c = "INSERT INTO logs () VALUES ()".
Proof.
  apply (newClickhouseOutput_without_schema rejectFloats failingDriver
           {| cfg_table := "logs"; cfg_bulk_actions := 2; cfg_concurrent := 1 |}
           [0%nat; 1%nat]).
  - discriminate.
  - simpl. lia.
  - reflexivity.
Defined.

(** ** Column defaults *)

Section DefaultFacts.

Context (ParseFloat : strconv.ParseFloat_t).

(** What the table holds for a name is what the loop body computes for the
    column of that name. *)
Lemma columnDefaults_lookup desc dv name :
  columnDefaults ParseFloat desc = Ok dv →
  match desc !! name with
  | Some d =>
      ∃ lit, defaultLiteral d = Ok lit ∧
             typeDefault ParseFloat (Type_ d) lit = Ok (dv !! name)
  | None => dv !! name = None
  end.
Proof.
  unfold columnDefaults. revert dv.
  apply (map_fold_weak_ind (λ r m, ∀ dv, r = Ok dv →
    match m !! name with
    | Some d =>
        ∃ lit, defaultLiteral d = Ok lit ∧
               typeDefault ParseFloat (Type_ d) lit = Ok (dv !! name)
    | None => dv !! name = None
    end)).
  - intros dv [= <-]. by rewrite !lookup_empty.
  - intros i d m r Hi IH dv Hdv. unfold columnDefault in Hdv.
    destruct r as [dv0| |]; simpl in Hdv; try done.
    destruct (defaultLiteral d) as [lit| |] eqn:Hlit; simpl in Hdv; try done.
    destruct (typeDefault ParseFloat (Type_ d) lit) as [entry| |] eqn:Hty;
      simpl in Hdv; try done.
    injection Hdv as <-. specialize (IH dv0 eq_refl).
    destruct (decide (i = name)) as [->|Hne].
    + rewrite lookup_insert_eq. rewrite Hi in IH.
      exists lit. split; [done|]. rewrite Hty. f_equal.
      destruct entry; [by rewrite lookup_insert_eq|done].
    + rewrite lookup_insert_ne by done.
      destruct entry; [by rewrite lookup_insert_ne|done].
Qed.


Lemma typeDefault_outside ty lit :
  ty ∉ defaultedTypes → typeDefault ParseFloat ty lit = Ok None.
Proof.
  intros Hn. unfold typeDefault, oneOf, existsb.
  rewrite !(eqb_outside defaultedTypes ty _ Hn)
    by (apply (bool_decide_unpack _); vm_compute; exact I).
  done.
Qed.


End DefaultFacts.


(** ** Argument rows *)

Section ArgsFacts.

Context (ParseFloat : strconv.ParseFloat_t).

Lemma fillArgs_lookup c event fs : ∀ i args args',
  fillArgs ParseFloat c event fs i args = Ok args' →
  length args' = length args ∧
  (∀ j, (j < i)%nat → args' !! j = args !! j) ∧
  (∀ k field, fs !! k = Some field →
     ∃ v, argFor ParseFloat c event field = Ok v ∧
          args' !! (i + k)%nat = Some v).
Proof.
  induction fs as [|f fs IH]; intros i args args' H; simpl in H.
  - injection H as <-. split; [done|]. split; [done|].
    intros k field Hk. done.
  - destruct (argFor ParseFloat c event f) as [v| |] eqn:Hv; simpl in H;
      try done.
    destruct (decide (i < length args)%nat) as [Hi|]; [|done].
    apply IH in H as (Hlen & Hlow & Hup).
    rewrite length_insert in Hlen. split; [done|]. split.
    + intros j Hj. rewrite Hlow by lia. apply list_lookup_insert_ne. lia.
    + intros [|k] field Hk; simpl in Hk.
      * injection Hk as <-. exists v. split; [done|].
        rewrite Nat.add_0_r, Hlow by lia.
        by apply list_lookup_insert_eq.
      * destruct (Hup k field Hk) as (v' & Hv' & Hl). exists v'.
        split; [done|]. by rewrite <- Nat.add_succ_comm.
Qed.

(** C8.  In the argument row of a record, the position of a field the
    record lacks, or holds as null, gets the column's entry of the default
    table, and the empty string when the table has no entry for it. *)
Theorem buildArgs_missing_field c (event : Event) i field :
  fields c !! i = Some field →
  event !! field = None ∨ event !! field = Some VNil →
  argFor ParseFloat c event field
    = Ok (default (VString "") (defaultValue c !! field)) ∧
  ∀ args, buildArgs ParseFloat c event = Ok args →
          args !! i = Some (default (VString "") (defaultValue c !! field)).
Proof.
  intros Hf Hmiss.
  assert (Harg : argFor ParseFloat c event field
                 = Ok (default (VString "") (defaultValue c !! field))).
  { unfold argFor. destruct Hmiss as [-> | ->];
      by destruct (defaultValue c !! field). }
  split; [done|]. intros args Hargs.
  apply fillArgs_lookup in Hargs as (_ & _ & Hup).
  destruct (Hup i field Hf) as (v & Hv & Hl).
  rewrite Harg in Hv. injection Hv as <-. done.
Qed.

End ArgsFacts.

Lemma buildArgs_missing_field_witness :
  buildArgs rejectFloats exampleOutput (exampleEvent "7")
    = Ok [VUint64 7; VString ""; VString ""] ∧
  argFor rejectFloats exampleOutput {["name" := VNil]} "id" = Ok (VInt 0) ∧
  ∀ args, buildArgs rejectFloats exampleOutput {["name" := VNil]} = Ok args →
          args !! 0%nat = Some (VInt 0).
Proof.
  split; [reflexivity|].
  apply (buildArgs_missing_field rejectFloats exampleOutput
           {["name" := VNil]} 0 "id").
  - reflexivity.
  - left. reflexivity.
Defined.

(** ** The buffer and its two triggers *)

Lemma mjoin_snoc {A} (ls : list (list A)) (l : list A) :
  mjoin (ls ++ [l]) = mjoin ls ++ l.
Proof. rewrite join_app. simpl. by rewrite app_nil_r. Qed.

(** What a step does to the batches and to the buffer. *)
Lemma step_Emit s e s' :
  step s (LEmit e) = Some s' →
  bulk_actions (out s') = bulk_actions (out s) ∧
  if Z.of_nat (length (events (out s)) + 1) <? bulk_actions (out s)
  then batches s' = batches s ∧ events (out s') = events (out s) ++ [e]
  else batches s' = batches s ++ [events (out s) ++ [e]] ∧
       events (out s') = [].
Proof.
  unfold step, Emit_locked. rewrite length_app. simpl length.
  destruct (flushing s) eqn:Hfl; [done|].
  destruct (Z.of_nat _ <? _).
  - intros [= <-]. unfold batches. simpl. rewrite Hfl, app_nil_r. simpl.
    auto.
  - destruct (bulk_actions (out s) <? 0); [done|].
    intros [= <-]. unfold batches. simpl. rewrite Hfl. simpl.
    by rewrite !app_assoc.
Qed.

Lemma step_Tick s s' :
  step s LTick = Some s' →
  bulk_actions (out s') = bulk_actions (out s) ∧
  if decide (events (out s) = []) then s' = s
  else flushing s' = Some (events (out s)) ∧ events (out s') = [] ∧
       batches s' ≡ₚ batches s ++ [events (out s)].
Proof.
  unfold step, flush_locked.
  destruct (flushing s) eqn:Hfl; [done|].
  destruct (events (out s)) as [|e evs] eqn:Hev; simpl.
  - intros [= <-]. split; [done|]. destruct s; simpl in *. by subst.
  - destruct (bulk_actions (out s) <? 0); [done|].
    intros [= <-]. simpl. repeat split. unfold batches. simpl.
    rewrite Hfl. simpl. rewrite <- !app_assoc.
    do 2 apply Permutation_app_head. by rewrite Permutation_app_comm.
Qed.

Lemma step_move s l s' :
  step s l = Some s' →
  match l with LSend _ | LTickSend | LRecv => True | _ => False end →
  bulk_actions (out s') = bulk_actions (out s) ∧
  events (out s') = events (out s) ∧ batches s' ≡ₚ batches s.
Proof.
  destruct l; try done; intros Hstep _; simpl in Hstep.
  - destruct (sending s !! i) as [b|] eqn:Hb; [|done].
    unfold send in Hstep. destruct (_ <? _); [|done].
    injection Hstep as <-. simpl. repeat split. unfold batches. simpl.
    pose proof (delete_Permutation (sending s) i b Hb) as Hp.
    etrans; [|do 3 apply Permutation_app_head; symmetry; exact Hp].
    solve_Permutation.
  - destruct (flushing s) as [b|] eqn:Hfl; [|done].
    unfold send in Hstep. destruct (_ <? _); [|done].
    injection Hstep as <-. simpl. repeat split. unfold batches. simpl.
    rewrite Hfl. by rewrite <- !app_assoc.
  - destruct (bulkChan (out s)) as [|b rest] eqn:Hch; [done|].
    injection Hstep as <-. simpl. repeat split. unfold batches. simpl.
    rewrite Hch. by rewrite <- !app_assoc.
Qed.

(** A step keeps every record: the batches and the buffer after it hold
    what they held before and the record submitted, if the step submits. *)
Lemma step_conserves s l s' :
  step s l = Some s' →
  bulk_actions (out s') = bulk_actions (out s) ∧
  mjoin (batches s') ++ events (out s')
    ≡ₚ mjoin (batches s) ++ events (out s) ++ submitted [l] ∧
  (Forall (λ b, b ≠ []) (batches s) → Forall (λ b, b ≠ []) (batches s')).
Proof.
  intros Hstep. destruct l as [e|i| | |].
  - apply step_Emit in Hstep as [Hb Hstep]. split; [done|].
    destruct (_ <? _); destruct Hstep as [-> ->]; simpl.
    + done.
    + rewrite mjoin_snoc, app_nil_r. split; [done|].
      intros H. apply Forall_app. split; [done|].
      constructor; [|done]. by destruct (events (out s)).
  - apply step_move in Hstep as (Hb & -> & Hp); [|done].
    rewrite Hp. simpl. by rewrite app_nil_r.
  - apply step_Tick in Hstep as [Hb Hstep]. split; [done|].
    destruct (decide _) as [He|He].
    + subst s'. simpl. by rewrite app_nil_r.
    + destruct Hstep as (_ & -> & Hp). rewrite Hp. simpl.
      rewrite mjoin_snoc, !app_nil_r. split; [done|].
      intros H. apply Forall_app. split; [done|]. by constructor.
  - apply step_move in Hstep as (Hb & -> & Hp); [|done].
    rewrite Hp. simpl. by rewrite app_nil_r.
  - apply step_move in Hstep as (Hb & -> & Hp); [|done].
    rewrite Hp. simpl. by rewrite app_nil_r.
Qed.

Lemma submitted_cons l ls : submitted (l :: ls) = submitted [l] ++ submitted ls.
Proof. unfold submitted. simpl. by rewrite app_nil_r. Qed.

Lemma run_conserves ls : ∀ s s',
  run s ls = Some s' →
  bulk_actions (out s') = bulk_actions (out s) ∧
  mjoin (batches s') ++ events (out s')
    ≡ₚ mjoin (batches s) ++ events (out s) ++ submitted ls ∧
  (Forall (λ b, b ≠ []) (batches s) → Forall (λ b, b ≠ []) (batches s')).
Proof.
  induction ls as [|l ls IH]; intros s s' Hrun; simpl in Hrun.
  - injection Hrun as <-. simpl. by rewrite app_nil_r.
  - destruct (step s l) as [s1|] eqn:Hstep; [|done]. simpl in Hrun.
    apply step_conserves in Hstep as (Hb1 & Hp1 & Hf1).
    apply IH in Hrun as (Hb & Hp & Hf).
    split; [congruence|]. split; [|by auto].
    rewrite Hp, submitted_cons, !app_assoc. apply Permutation_app_tail.
    by rewrite <- app_assoc.
Qed.

(** C3.  Along every run of producers, timer and workers from the empty
    buffer, the records in the batches that left the buffer, together with
    those still buffered, are the submitted records, each once, and no empty
    batch leaves the buffer.  [Emit] hands a batch over when the buffered
    count reaches [bulk_actions] and not before; the timer hands over a
    buffer that is not empty and leaves an empty one alone. *)
Theorem buffer_dispatch c ls s :
  events c = [] → bulkChan c = [] →
  run (start c) ls = Some s →
  mjoin (batches s) ++ events (out s) ≡ₚ submitted ls ∧
  Forall (λ b, b ≠ []) (batches s) ∧
  (∀ e s', step s (LEmit e) = Some s' →
     if Z.of_nat (length (events (out s)) + 1) <? bulk_actions c
     then batches s' = batches s ∧ events (out s') = events (out s) ++ [e]
     else batches s' = batches s ++ [events (out s) ++ [e]] ∧
          events (out s') = []) ∧
  (∀ s', step s LTick = Some s' →
     if decide (events (out s) = []) then s' = s
     else flushing s' = Some (events (out s)) ∧ events (out s') = [] ∧
          batches s' ≡ₚ batches s ++ [events (out s)]) ∧
  (0 ≤ bulk_actions c → flushing s = None →
     ∀ e, is_Some (step s (LEmit e)) ∧ is_Some (step s LTick)).
Proof.
  intros Hev Hch Hrun. apply run_conserves in Hrun as (Hb & Hp & Hf).
  assert (Hstart : batches (start c) = [])
    by (unfold batches; simpl; by rewrite Hch).
  rewrite Hstart in Hp, Hf. simpl in Hb, Hp. rewrite Hev in Hp. simpl in Hp.
  split; [done|]. split; [by apply Hf|]. split; [|split].
  - intros e s' Hstep. apply step_Emit in Hstep as [_ H]. by rewrite Hb in H.
  - intros s' Hstep. by apply step_Tick in Hstep as [_ H].
  - intros Hcap Hfree e. split.
    + unfold step, Emit_locked. rewrite Hfree, Hb.
      destruct (_ <? _); [done|].
      destruct (Z.ltb_spec (bulk_actions c) 0); [lia|done].
    + unfold step, flush_locked. rewrite Hfree, Hb.
      destruct (0 <? _); [|done].
      destruct (Z.ltb_spec (bulk_actions c) 0); [lia|done].
Qed.

Lemma buffer_dispatch_witness :
  ∃ s, run (start exampleOutput) exampleRun = Some s ∧
       taken s = [[exampleEvent "1"; exampleEvent "2"]; [exampleEvent "3"]] ∧
       events (out s) = [] ∧
       mjoin (batches s) ++ events (out s) ≡ₚ submitted exampleRun.
Proof.
  destruct (run (start exampleOutput) exampleRun) as [s|] eqn:Hrun;
    [|by vm_compute in Hrun].
  exists s. split; [done|].
  pose proof (buffer_dispatch exampleOutput exampleRun s eq_refl eq_refl Hrun)
    as (Hp & _).
  vm_compute in Hrun. injection Hrun as <-.
  split; [vm_compute; reflexivity|]. split; [vm_compute; reflexivity|].
  exact Hp.
Defined.

(** ** Writing a batch *)

Lemma execArgs_app ks1 ks2 : execArgs (ks1 ++ ks2) = execArgs ks1 ++ execArgs ks2.
Proof. unfold execArgs. apply bind_app. Qed.

Lemma execArgs_Exec db rows : execArgs (CExec db <$> rows) = rows.
Proof.
  induction rows as [|r rows IH]; [done|].
  change (r :: execArgs (CExec db <$> rows) = r :: rows). by rewrite IH.
Qed.

Lemma no_Begin_Exec db (rows : list (list value)) d :
  CBegin d ∉ (CExec db <$> rows).
Proof. intros (r & [=] & _)%list_elem_of_fmap. Qed.

(** Calls other than [Begin] and [Exec] after the executed rows. *)
Lemma calls_tail db (rows : list (list value)) (tail : list call) :
  Forall (λ k, match k with CBegin _ | CExec _ _ => False | _ => True end)
         tail →
  (∀ d, CBegin d ∉ (CExec db <$> rows) ++ tail) ∧
  execArgs ((CExec db <$> rows) ++ tail) = rows.
Proof.
  intros Hall. split.
  - intros d [?%no_Begin_Exec|Hin]%elem_of_app; [done|].
    rewrite Forall_forall in Hall. by apply Hall in Hin.
  - rewrite execArgs_app, execArgs_Exec.
    assert (execArgs tail = []) as ->; [|by rewrite app_nil_r].
    induction Hall as [|k tail Hk _ IH]; [done|].
    change (k :: tail) with ([k] ++ tail).
    rewrite execArgs_app, IH. by destruct k.
Qed.

Section FlushFacts.

Context (ParseFloat : strconv.ParseFloat_t).

Lemma clock_called w k : clock (called w k) = S (clock w).
Proof. unfold clock, called. simpl. rewrite length_app. simpl. lia. Qed.

(** The loop over the batch calls [Exec] on the rows of a prefix of the
    batch, in order, and touches nothing else; it goes on exactly as long
    as the driver accepts the rows. *)
Lemma execRows_spec drv c db evs : ∀ i tx w r w',
  execRows ParseFloat drv c db evs i tx w = (r, w') →
  ∃ rows,
    calls w' = calls w ++ (CExec db <$> rows) ∧
    store w' = store w ∧
    Forall2 (λ ev args, buildArgs ParseFloat c ev = Ok args)
            (take (length rows) evs) rows ∧
    (∀ j args, rows !! j = Some args →
       ExecFails drv (clock w + j) db args
       = match r with
         | inl (ExecFailed k) => bool_decide (i + j = k)%nat
         | _ => false
         end) ∧
    match r with
    | inr tx' => tx' = tx ++ rows ∧ length rows = length evs
    | inl (ExecFailed j) =>
        (S j = i + length rows)%nat ∧ (0 < length rows ≤ length evs)%nat
    | inl Exited =>
        ∃ ev, evs !! length rows = Some ev ∧
              buildArgs ParseFloat c ev = Fatal
    | inl Panicked =>
        ∃ ev, evs !! length rows = Some ev ∧
              buildArgs ParseFloat c ev = Panic
    | inl _ => False
    end.
Proof.
  induction evs as [|ev evs IH]; intros i tx w r w' H; simpl in H.
  - injection H as <- <-. exists []. simpl.
    rewrite !app_nil_r. split_and!; [done|done|constructor|done|done|done].
  - destruct (buildArgs ParseFloat c ev) as [args| |] eqn:Hargs.
    + destruct (ExecFails drv (clock w) db args) eqn:Hfail.
      * injection H as <- <-. exists [args]. simpl.
        split_and!; try done; try lia.
        -- by repeat constructor.
        -- intros [|j] args' Hj; [|done]. injection Hj as <-.
           rewrite Nat.add_0_r, Hfail. symmetry. by apply bool_decide_eq_true.
      * apply IH in H as (rows & Hc & Hs & Hf & Ho & Hr).
        exists (args :: rows). simpl in Hc, Hs |- *.
        rewrite Hc, <- app_assoc. split_and!; [done|done|by constructor| |].
        -- intros [|j] args' Hj; simpl in Hj.
           ++ injection Hj as <-. rewrite Nat.add_0_r, Hfail.
              destruct r as [[| |k| | |]|tx']; try done.
              symmetry. apply bool_decide_eq_false. lia.
           ++ rewrite clock_called in Ho.
              replace (clock w + S j)%nat with (S (clock w) + j)%nat by lia.
              rewrite (Ho j args' Hj).
              destruct r as [[| |k| | |]|tx']; try done.
              by replace (i + S j)%nat with (S i + j)%nat by lia.
        -- destruct r as [[| |k| | |]|tx']; try done.
           ++ simpl. lia.
           ++ destruct Hr as [-> ->]. by rewrite <- app_assoc.
    + injection H as <- <-. exists []. simpl.
      rewrite app_nil_r. split_and!; [done|done|constructor|done|by exists ev].
    + injection H as <- <-. exists []. simpl.
      rewrite app_nil_r. split_and!; [done|done|constructor|done|by exists ev].
Qed.

(** When the driver accepts every row, the loop executes them all. *)
Lemma execRows_accepted drv c db evs rows :
  Forall2 (λ ev args, buildArgs ParseFloat c ev = Ok args) evs rows →
  ∀ i tx w,
  (∀ j args, rows !! j = Some args →
     ExecFails drv (clock w + j) db args = false) →
  execRows ParseFloat drv c db evs i tx w
  = (inr (tx ++ rows),
     {| calls := calls w ++ (CExec db <$> rows); store := store w |}).
Proof.
  induction 1 as [|ev args evs rows Hargs _ IH]; intros i tx w Hok; simpl.
  - rewrite !app_nil_r. by destruct w.
  - rewrite Hargs.
    pose proof (Hok O args eq_refl) as H0. rewrite Nat.add_0_r in H0.
    rewrite H0, IH.
    + simpl. by rewrite <- !app_assoc.
    + intros j args' Hj. rewrite clock_called.
      replace (S (clock w) + j)%nat with (clock w + S j)%nat by lia.
      by apply Hok.
Qed.

(** When the driver rejects the row at position [k] after accepting those
    before it, the loop stops there: no later row is executed. *)
Lemma execRows_rejected drv c db k : ∀ evs rows i tx w,
  length rows = S k →
  Forall2 (λ ev args, buildArgs ParseFloat c ev = Ok args)
          (take (S k) evs) rows →
  (∀ j args, rows !! j = Some args →
     ExecFails drv (clock w + j) db args = bool_decide (j = k)) →
  execRows ParseFloat drv c db evs i tx w
  = (inl (ExecFailed (i + k)),
     {| calls := calls w ++ (CExec db <$> rows); store := store w |}).
Proof.
  induction k as [|k IH]; intros evs rows i tx w Hlen Hbuilt Hfail.
  - destruct rows as [|args [|]]; try done.
    destruct evs as [|ev evs]; [by inversion Hbuilt|].
    simpl in Hbuilt. apply Forall2_cons in Hbuilt as [Hargs _].
    simpl. rewrite Hargs.
    pose proof (Hfail O args eq_refl) as H0. rewrite Nat.add_0_r in H0.
    rewrite H0. simpl. by rewrite Nat.add_0_r.
  - destruct rows as [|args rows]; [done|].
    destruct evs as [|ev evs]; [by inversion Hbuilt|].
    simpl in Hbuilt. apply Forall2_cons in Hbuilt as [Hargs Hbuilt].
    simpl. rewrite Hargs.
    pose proof (Hfail O args eq_refl) as H0. rewrite Nat.add_0_r in H0.
    rewrite H0. simpl. rewrite (IH evs rows).
    + simpl. rewrite <- !app_assoc. do 3 f_equal. lia.
    + simpl in Hlen. lia.
    + done.
    + intros j args' Hj. rewrite clock_called.
      replace (S (clock w) + j)%nat with (clock w + S j)%nat by lia.
      rewrite (Hfail (S j) args' Hj).
      destruct (decide (j = k)) as [->|Hne].
      * by rewrite !bool_decide_eq_true_2.
      * rewrite !bool_decide_eq_false_2; [done|lia|lia].
Qed.

(** C4.  Once [Begin] has returned a transaction, the batch ends in one of
    two ways: every row is in the store, or none is.  The rows executed
    are those of a prefix of the batch, each once, and the driver accepted
    each of them but the last of a failed write.  If the driver rejects the
    [Exec] of a row, the loop stops at that row, the deferred [Rollback]
    runs and the store is as it was: the rows executed before are undone and
    the rest of the batch is never executed.  If every row is accepted, the
    [Commit] decides: when it fails the store is as it was, when it succeeds
    the store gains every row.  No further [Begin] is made, and [innerFlush]
    puts nothing back into the buffer or the channel. *)
Theorem writeBatch_all_or_nothing drv c db evs w o w' :
  writeBatch ParseFloat drv c db evs w = (o, w') →
  (∃ rows new,
     calls w' = calls w ++ CPrepare db :: new ∧
     (∀ d, CBegin d ∉ new) ∧
     execArgs new = rows ∧
     Forall2 (λ ev args, buildArgs ParseFloat c ev = Ok args)
             (take (length rows) evs) rows ∧
     (∀ j args, rows !! j = Some args →
        ExecFails drv (S (clock w) + j) db args
        = match o with ExecFailed i => bool_decide (j = i) | _ => false end) ∧
     match o with
     | Committed =>
         length rows = length evs ∧
         store w' = store w ++ (pair db <$> rows) ∧
         PrepareFails drv (clock w) db (query c) = false ∧
         CommitFails drv (S (clock w) + length rows) db = false
     | ExecFailed i =>
         store w' = store w ∧ S i = length rows ∧
         (length rows ≤ length evs)%nat ∧
         last new = Some (CRollback db) ∧
         PrepareFails drv (clock w) db (query c) = false
     | CommitFailed =>
         store w' = store w ∧ last new = Some (CRollback db) ∧
         length rows = length evs ∧
         PrepareFails drv (clock w) db (query c) = false ∧
         CommitFails drv (S (clock w) + length rows) db = true
     | PrepareFailed =>
         store w' = store w ∧ last new = Some (CRollback db) ∧
         rows = [] ∧
         PrepareFails drv (clock w) db (query c) = true
     | Exited =>
         store w' = store w ∧
         PrepareFails drv (clock w) db (query c) = false ∧
         ∃ ev, evs !! length rows = Some ev ∧
               buildArgs ParseFloat c ev = Fatal
     | Panicked =>
         store w' = store w ∧
         PrepareFails drv (clock w) db (query c) = false ∧
         ∃ ev, evs !! length rows = Some ev ∧
               buildArgs ParseFloat c ev = Panic
     end) ∧
  (∀ i rows,
     PrepareFails drv (clock w) db (query c) = false →
     length rows = S i →
     Forall2 (λ ev args, buildArgs ParseFloat c ev = Ok args)
             (take (S i) evs) rows →
     (∀ j args, rows !! j = Some args →
        ExecFails drv (S (clock w) + j) db args = bool_decide (j = i)) →
     o = ExecFailed i ∧ store w' = store w ∧
     calls w' = calls w ++ CPrepare db :: (CExec db <$> rows)
                  ++ [CClose db; CRollback db]) ∧
  (∀ rows,
     PrepareFails drv (clock w) db (query c) = false →
     Forall2 (λ ev args, buildArgs ParseFloat c ev = Ok args) evs rows →
     (∀ j args, rows !! j = Some args →
        ExecFails drv (S (clock w) + j) db args = false) →
     calls w' = calls w ++ CPrepare db :: (CExec db <$> rows)
                  ++ [CCommit db; CClose db; CRollback db] ∧
     if CommitFails drv (S (clock w) + length rows) db
     then o = CommitFailed ∧ store w' = store w
     else o = Committed ∧ store w' = store w ++ (pair db <$> rows)) ∧
  (PrepareFails drv (clock w) db (query c) = true →
     o = PrepareFailed ∧ store w' = store w ∧
     calls w' = calls w ++ [CPrepare db; CRollback db]) ∧
  (∀ fuel r, innerFlush ParseFloat fuel drv c evs w = Some r →
             events r.1.2 = events c ∧ bulkChan r.1.2 = bulkChan c).
Proof.
  intros H. split_and!.
  - unfold writeBatch in H.
    destruct (PrepareFails drv (clock w) db (query c)) eqn:Hprep.
    { injection H as <- <-. exists [], [CRollback db]. simpl.
      rewrite <- app_assoc.
      destruct (calls_tail db [] [CRollback db]) as [Hnb _];
        [by repeat constructor|].
      split_and!; try done; constructor. }
    destruct (execRows _ _ _ _ _ _ _ _) as [r w1] eqn:Hrows.
    apply execRows_spec in Hrows as (rows & Hc & Hs & Hf & Ho & Hr).
    rewrite clock_called in Ho. simpl in Hc, Hs.
    assert (Hclock : clock w1 = (S (clock w) + length rows)%nat).
    { unfold clock. rewrite Hc, !length_app, length_fmap. simpl. lia. }
    destruct r as [o1|tx].
    + destruct (calls_tail db rows [CClose db; CRollback db])
        as [Hnb Hex]; [by repeat constructor|].
      destruct o1 as [| |j| | |]; try done.
      * injection H as <- <-. destruct Hr as [Hj Hle].
        exists rows, ((CExec db <$> rows) ++ [CClose db; CRollback db]).
        simpl. rewrite Hc, <- !app_assoc. simpl.
        split_and!; try done; try lia; try (by rewrite last_app).
      * injection H as <- <-. exists rows, (CExec db <$> rows).
        rewrite Hc, <- !app_assoc. simpl.
        split_and!; try done; try (by rewrite execArgs_Exec).
        intros d. apply no_Begin_Exec.
      * injection H as <- <-.
        exists rows, ((CExec db <$> rows) ++ [CClose db; CRollback db]).
        simpl. rewrite Hc, <- !app_assoc. simpl. by split_and!.
    + destruct Hr as [-> Hlen].
      destruct (calls_tail db rows [CCommit db; CClose db; CRollback db])
        as [Hnb Hex]; [by repeat constructor|].
      rewrite Hclock in H.
      destruct (CommitFails drv (S (clock w) + length rows) db) eqn:Hcommit;
        injection H as <- <-;
        exists rows,
          ((CExec db <$> rows) ++ [CCommit db; CClose db; CRollback db]);
        simpl; rewrite Hc, <- !app_assoc; simpl.
      * split_and!; try done. by rewrite last_app.
      * split_and!; try done; congruence.
  - intros i rows Hprep Hlen Hbuilt Hfail. unfold writeBatch in H.
    rewrite Hprep in H.
    rewrite (execRows_rejected drv c db i evs rows) in H; try done.
    + injection H as <- <-. simpl. split_and!; try done.
      by rewrite <- !app_assoc.
    + intros j args Hj. rewrite clock_called. by apply Hfail.
  - intros rows Hprep Hbuilt Hok. unfold writeBatch in H.
    rewrite Hprep in H.
    rewrite (execRows_accepted drv c db evs rows) in H; try done.
    + assert (Hclock : ∀ st,
        clock {| calls := calls (called w (CPrepare db)) ++ (CExec db <$> rows);
                 store := st |} = (S (clock w) + length rows)%nat).
      { intros st. unfold clock. simpl.
        rewrite !length_app, length_fmap. simpl. lia. }
      rewrite Hclock in H.
      destruct (CommitFails drv (S (clock w) + length rows) db);
        injection H as <- <-; simpl; rewrite <- !app_assoc; by split_and!.
    + intros j args Hj. rewrite clock_called. by apply Hok.
  - intros Hprep. unfold writeBatch in H. rewrite Hprep in H.
    injection H as <- <-. simpl. by rewrite <- !app_assoc.
  - intros fuel r Hr. unfold innerFlush in Hr.
    destruct (innerFlush_loop _ _ _ _ _ _ _) as [[[o1 sel1] w1]|];
      [|done].
    by injection Hr as <-.
Qed.

End FlushFacts.

(** ** Retrying [Begin] *)

Lemma advance_S k sel : advance (S k) sel = (Next (advance k sel)).2.
Proof. revert sel. induction k as [|k IH]; intros sel; [done|]. apply IH. Qed.

Lemma begun_clock k : ∀ sel w,
  (∀ j, (j < k)%nat → is_Some (replica sel j)) →
  clock (begun k sel w) = (clock w + k)%nat.
Proof.
  induction k as [|k IH]; intros sel w Hsome; simpl; [lia|].
  destruct (Hsome O ltac:(lia)) as [db Hdb]. unfold replica in Hdb.
  simpl in Hdb. rewrite Hdb, IH.
  - unfold clock, called. simpl. rewrite length_app. simpl. lia.
  - intros j Hj. apply (Hsome (S j)). lia.
Qed.

(** The first [Begin] that does not fail among the next [n], if any. *)
Lemma first_begin (fails : nat → bool) n :
  (∀ j, (j < n)%nat → fails j = true) ∨
  ∃ k, (k < n)%nat ∧ (∀ j, (j < k)%nat → fails j = true) ∧ fails k = false.
Proof.
  induction n as [|n [IH|(k & Hk & Hlow & Hf)]].
  - left. lia.
  - destruct (fails n) eqn:Hn.
    + left. intros j Hj. destruct (decide (j = n)) as [->|]; [done|].
      apply IH. lia.
    + right. exists n. repeat split; [lia|done..].
  - right. exists k. repeat split; [lia|done..].
Qed.

Section RetryFacts.

Context (ParseFloat : strconv.ParseFloat_t).

(** While [Begin] fails, the loop goes on with the next replica and the
    same batch. *)
Lemma innerFlush_loop_retry drv c evs k : ∀ fuel sel w,
  (∀ j, (j < k)%nat → beginFailsAt drv sel w j = true) →
  innerFlush_loop ParseFloat (k + fuel) drv c sel evs w
  = innerFlush_loop ParseFloat fuel drv c (advance k sel) evs (begun k sel w).
Proof.
  induction k as [|k IH]; intros fuel sel w Hfail; [done|].
  pose proof (Hfail O ltac:(lia)) as Hnow.
  unfold beginFailsAt, replica in Hnow. cbn [advance] in Hnow.
  cbn [Nat.add innerFlush_loop advance begun].
  destruct (Next sel) as [[db|] sel1] eqn:Hnext; cbn [fst snd] in Hnow |- *;
    [|done].
  rewrite Nat.add_0_r in Hnow. rewrite Hnow. apply IH.
  intros j Hj. specialize (Hfail (S j) ltac:(lia)).
  unfold beginFailsAt, replica in *. cbn [advance] in Hfail.
  rewrite Hnext in Hfail. cbn [fst snd] in Hfail.
  destruct (Next (advance j sel1)).1; [|done].
  replace (clock (called w (CBegin db)) + j)%nat with (clock w + S j)%nat;
    [done|].
  unfold clock, called. simpl. rewrite length_app. simpl. lia.
Qed.

(** The loop ends at the first [Begin] that does not fail. *)
Lemma innerFlush_loop_attempt drv c evs sel w k fuel :
  (k < fuel)%nat →
  (∀ j, (j < k)%nat → beginFailsAt drv sel w j = true) →
  beginFailsAt drv sel w k = false →
  innerFlush_loop ParseFloat fuel drv c sel evs w
  = Some (attempt ParseFloat drv c sel evs w k).
Proof.
  intros Hk Hfail Hok.
  replace fuel with (k + S (fuel - S k))%nat by lia.
  rewrite innerFlush_loop_retry by done.
  assert (Hclock : clock (begun k sel w) = (clock w + k)%nat).
  { apply begun_clock. intros j Hj. specialize (Hfail j Hj).
    unfold beginFailsAt in Hfail. by destruct (replica sel j). }
  unfold attempt, beginFailsAt in *. rewrite advance_S.
  unfold replica in *. cbn [innerFlush_loop].
  destruct (Next (advance k sel)) as [[db|] sel1]; simpl in *; [|done].
  rewrite Hclock, Hok. by destruct (writeBatch _ _ _ _ _ _).
Qed.

(** C5.  A failed [Begin] does not end the write: the loop of
    [innerFlush] goes on with the next replica of the selector and the
    same batch.  If [Begin] fails on every attempt, no number of
    iterations ends it.  When it ends, some [Begin] did not fail, and
    what follows is the write of the batch in that transaction; and it
    does end as soon as a [Begin] does not fail. *)
Theorem innerFlush_retries drv c evs w :
  (∀ k fuel,
     (∀ j, (j < k)%nat → beginFailsAt drv (dbSelector c) w j = true) →
     innerFlush ParseFloat (k + fuel) drv c evs w
     = finished c <$>
         innerFlush_loop ParseFloat fuel drv c (advance k (dbSelector c))
           evs (begun k (dbSelector c) w)) ∧
  ((∀ k, beginFailsAt drv (dbSelector c) w k = true) →
   ∀ fuel, innerFlush ParseFloat fuel drv c evs w = None) ∧
  (∀ fuel r,
     innerFlush ParseFloat fuel drv c evs w = Some r →
     ∃ k, (k < fuel)%nat ∧
          (∀ j, (j < k)%nat → beginFailsAt drv (dbSelector c) w j = true) ∧
          beginFailsAt drv (dbSelector c) w k = false ∧
          r = finished c (attempt ParseFloat drv c (dbSelector c) evs w k)) ∧
  (∀ k fuel,
     (k < fuel)%nat →
     (∀ j, (j < k)%nat → beginFailsAt drv (dbSelector c) w j = true) →
     beginFailsAt drv (dbSelector c) w k = false →
     innerFlush ParseFloat fuel drv c evs w
     = Some (finished c (attempt ParseFloat drv c (dbSelector c) evs w k))).
Proof.
  assert (Hfin : ∀ fuel,
    innerFlush ParseFloat fuel drv c evs w
    = finished c <$> innerFlush_loop ParseFloat fuel drv c (dbSelector c) evs w).
  { intros fuel. unfold innerFlush, finished.
    by destruct (innerFlush_loop _ _ _ _ _ _ _) as [[[o sel'] w']|]. }
  repeat split.
  - intros k fuel Hfail. by rewrite Hfin, innerFlush_loop_retry.
  - intros Hfail fuel. rewrite Hfin.
    replace fuel with (fuel + 0)%nat by lia.
    by rewrite innerFlush_loop_retry.
  - intros fuel r Hr. rewrite Hfin in Hr.
    destruct (first_begin (beginFailsAt drv (dbSelector c) w) fuel)
      as [Hall|(k & Hk & Hlow & Hok)].
    + replace fuel with (fuel + 0)%nat in Hr by lia.
      by rewrite innerFlush_loop_retry in Hr.
    + exists k. repeat split; [done..|].
      rewrite (innerFlush_loop_attempt drv c evs _ w k fuel) in Hr by done.
      by injection Hr.
  - intros k fuel Hk Hlow Hok.
    by rewrite Hfin, (innerFlush_loop_attempt drv c evs _ w k fuel).
Qed.

End RetryFacts.

(** The first [Begin] fails; the second, on the next replica, opens the
    transaction in which both records are committed. *)
Example innerFlush_second_replica :
  innerFlush rejectFloats 2%nat exampleDriver exampleOutput
    [exampleEvent "1"; exampleEvent "2"] emptyWorld
  = Some (Committed,
          set_execution exampleOutput 1 {| hosts := [0%nat; 1%nat]; index := 0 |},
          {| calls := [CBegin 0%nat; CBegin 1%nat; CPrepare 1%nat;
                       CExec 1%nat [VUint64 1; VString ""; VString ""];
                       CExec 1%nat [VUint64 2; VString ""; VString ""];
                       CCommit 1%nat; CClose 1%nat; CRollback 1%nat];
             store := [(1%nat, [VUint64 1; VString ""; VString ""]);
                       (1%nat, [VUint64 2; VString ""; VString ""])] |}).
Proof. reflexivity. Qed.

Lemma writeBatch_all_or_nothing_witness :
  (∃ w', writeBatch rejectFloats rejectingDriver exampleOutput 1%nat
           [exampleEvent "1"; exampleEvent "2"; exampleEvent "3"]
           (called emptyWorld (CBegin 1%nat)) = (ExecFailed 1, w') ∧
         store w' = [] ∧
         calls w' = [CBegin 1%nat; CPrepare 1%nat;
                     CExec 1%nat [VUint64 1; VString ""; VString ""];
                     CExec 1%nat [VUint64 2; VString ""; VString ""];
                     CClose 1%nat; CRollback 1%nat]) ∧
  (∃ w', writeBatch rejectFloats exampleDriver exampleOutput 1%nat
           [exampleEvent "1"; exampleEvent "2"]
           (called emptyWorld (CBegin 1%nat)) = (Committed, w') ∧
         store w' = [(1%nat, [VUint64 1; VString ""; VString ""]);
                     (1%nat, [VUint64 2; VString ""; VString ""])]).
Proof.
  split.
  - destruct (writeBatch rejectFloats rejectingDriver exampleOutput 1%nat
                [exampleEvent "1"; exampleEvent "2"; exampleEvent "3"]
                (called emptyWorld (CBegin 1%nat))) as [o w'] eqn:H.
    destruct (writeBatch_all_or_nothing rejectFloats rejectingDriver
                exampleOutput 1%nat _ _ o w' H) as (_ & Hrejected & _).
    destruct (Hrejected 1%nat
                [[VUint64 1; VString ""; VString ""];
                 [VUint64 2; VString ""; VString ""]])
      as (-> & Hs & Hc).
    + reflexivity.
    + reflexivity.
    + repeat constructor; vm_compute; reflexivity.
    + intros [|[|j]] args Hj; try done; reflexivity.
    + exists w'. by split_and!.
  - destruct (writeBatch rejectFloats exampleDriver exampleOutput 1%nat
                [exampleEvent "1"; exampleEvent "2"]
                (called emptyWorld (CBegin 1%nat))) as [o w'] eqn:H.
    destruct (writeBatch_all_or_nothing rejectFloats exampleDriver
                exampleOutput 1%nat _ _ o w' H) as (_ & _ & Haccepted & _).
    destruct (Haccepted
                [[VUint64 1; VString ""; VString ""];
                 [VUint64 2; VString ""; VString ""]])
      as (_ & -> & Hs).
    + reflexivity.
    + repeat constructor; vm_compute; reflexivity.
    + intros [|[|j]] args Hj; try done; reflexivity.
    + exists w'. by split_and!.
Defined.

(** * Further properties *)

(** ** Type coercion *)

Section CoercionMore.

Context (ParseFloat : strconv.ParseFloat_t).

(** X1.  Every return of [convertCkType] has a nil error, so [innerFlush] always
    takes the converted value: for a field that is present and not nil, the
    argument is the first result of [convertCkType], and the branch that
    keeps the unconverted value is never taken. *)
Theorem convertCkType_err_nil c (event : Event) field v1 ct :
  event !! field = Some v1 →
  v1 ≠ VNil →
  desc c !! field = Some ct →
  (∀ out err, convertCkType ParseFloat (Type_ ct) v1 = Ok (out, err) →
              err = None) ∧
  argFor ParseFloat c event field
  = (r ← convertCkType ParseFloat (Type_ ct) v1; Ok r.1).
Proof.
  intros Hev Hnil Hct.
  assert (Herr : ∀ out err,
    convertCkType ParseFloat (Type_ ct) v1 = Ok (out, err) → err = None).
  { unfold convertCkType. intros out err H.
    match type of H with
    | match ?sw with _ => _ end = _ => destruct sw as [o|[e|]]
    end; by simplify_eq. }
  split; [done|]. unfold argFor. rewrite Hev, Hct.
  destruct (convertCkType ParseFloat (Type_ ct) v1) as [[v2 err]| |] eqn:Hconv;
    simpl.
  - rewrite (Herr v2 err eq_refl). by destruct v1.
  - by destruct v1.
  - by destruct v1.
Qed.

(** X2.  A value that is neither a [json.Number], a string nor a boolean is
    returned as it came on every column type, covered or not. *)
Theorem convertCkType_other_values ckType (val : value) :
  convertible val = false →
  convertCkType ParseFloat ckType val = Ok (val, None).
Proof.
  intros Hval. unfold convertCkType.
  destruct val; try discriminate Hval; simpl;
    repeat (destruct (String.eqb ckType _); simpl; try done).
Qed.

End CoercionMore.

Lemma convertCkType_err_nil_witness :
  argFor rejectFloats exampleOutput (exampleEvent "7") "id"
  = Ok (VUint64 7).
Proof.
  assert (Hd : desc exampleOutput !! "id" = Some
    {| Name := "id"; Type_ := "UInt32";
       DefaultType := ""; DefaultExpression := "" |}) by reflexivity.
  assert (Hne : VNumber "7" ≠ VNil) by discriminate.
  rewrite (proj2 (convertCkType_err_nil rejectFloats exampleOutput
    (exampleEvent "7") "id" (VNumber "7") _ eq_refl Hne Hd)).
  reflexivity.
Defined.

Lemma convertCkType_other_values_witness :
  convertCkType rejectFloats "Int32" (VSlice [VInt 1])
  = Ok (VSlice [VInt 1], None).
Proof.
  exact (convertCkType_other_values rejectFloats "Int32" (VSlice [VInt 1])
           eq_refl).
Defined.

(** ** The integer parses *)

Lemma uint64_range z : 0 ≤ strconv.uint64 z < 2 ^ 64.
Proof. unfold strconv.uint64. apply Z.mod_pos_bound. lia. Qed.

Lemma uint64_small z : 0 ≤ z < 2 ^ 64 → strconv.uint64 z = z.
Proof. intros H. unfold strconv.uint64. by apply Z.mod_small. Qed.

Lemma int64_small z : - 2 ^ 63 ≤ z < 2 ^ 63 → strconv.int64 z = z.
Proof.
  intros H. unfold strconv.int64. rewrite Z.mod_small; lia.
Qed.

Lemma int64_neg z : 0 ≤ z ≤ 2 ^ 63 → strconv.int64 (- strconv.int64 z) = - z.
Proof.
  intros H. destruct (decide (z = 2 ^ 63)) as [Heq|Hne].
  - rewrite Heq. reflexivity.
  - rewrite (int64_small z) by lia. apply int64_small. lia.
Qed.

(** What one round of the digit loop checks before it goes on. *)
Lemma digits_step ch s maxVal n r err :
  strconv.digits (String ch s) maxVal n = (r, err) →
  (err = Some strconv.ErrSyntax ∧ r = 0) ∨
  (err = Some strconv.ErrRange ∧ r = maxVal) ∨
  ∃ d, 0 ≤ d < 10 ∧
       (d = strconv.byte_of ch - 48 ∧ 48 ≤ strconv.byte_of ch ≤ 57) ∧
       n < strconv.maxUint64 / 10 + 1 ∧
       strconv.uint64 (n * 10) ≤ strconv.uint64 (strconv.uint64 (n * 10) + d)
         ≤ maxVal ∧
       strconv.digits s maxVal
         (strconv.uint64 (strconv.uint64 (n * 10) + d)) = (r, err).
Proof.
  simpl. set (c := strconv.byte_of ch).
  destruct ((48 <=? c) && (c <=? 57)) eqn:Hdig.
  - destruct (Z.leb_spec 10 (c - 48)); [intros [= <- <-]; by left|].
    destruct (Z.leb_spec (strconv.maxUint64 / 10 + 1) n);
      [intros [= <- <-]; right; by left|].
    destruct (_ || _) eqn:Hchk; [intros [= <- <-]; right; by left|].
    intros Hrec. right. right. exists (c - 48).
    apply orb_false_elim in Hchk as [Hlt%Z.ltb_ge Hmax%Z.ltb_ge].
    apply andb_true_iff in Hdig as [Hlo%Z.leb_le Hhi%Z.leb_le].
    split_and!; try done; lia.
  - destruct ((97 <=? strconv.lower c) && (strconv.lower c <=? 122)) eqn:Hlet.
    + apply andb_true_iff in Hlet as [Hlo%Z.leb_le _].
      destruct (Z.leb_spec 10 (strconv.lower c - 97 + 10));
        [intros [= <- <-]; by left|].
      lia.
    + intros [= <- <-]. by left.
Qed.

(** The digit loop never returns, without error, more than [maxVal], and
    with a range error it returns [maxVal]. *)
Lemma digits_bound s : ∀ maxVal n r err,
  0 ≤ n ≤ maxVal →
  strconv.digits s maxVal n = (r, err) →
  match err with
  | None => 0 ≤ r ≤ maxVal
  | Some strconv.ErrRange => r = maxVal
  | Some _ => r = 0
  end.
Proof.
  induction s as [|ch s IH]; intros maxVal n r err Hn H.
  - simpl in H. by injection H as <- <-.
  - apply digits_step in H
      as [[-> ->]|[[-> ->]|(d & Hd & _ & Hcut & Hle & H)]]; [done..|].
    apply IH in H; [done|].
    pose proof (uint64_range (n * 10)). lia.
Qed.

(** The largest value of [bitSize] bits, as [ParseUint] computes it. *)
Lemma maxVal_bits bitSize :
  1 ≤ bitSize ≤ 64 →
  strconv.uint64 (strconv.uint64 (Z.shiftl 1 bitSize) - 1) = 2 ^ bitSize - 1.
Proof.
  intros H. rewrite Z.shiftl_1_l.
  destruct (decide (bitSize = 64)) as [->|Hne]; [done|].
  assert (2 ^ bitSize ≤ 2 ^ 63) by (apply Z.pow_le_mono_r; lia).
  assert (0 < 2 ^ bitSize) by (apply Z.pow_pos_nonneg; lia).
  assert (2 ^ 63 < 2 ^ 64) by done.
  rewrite (uint64_small (2 ^ bitSize)) by lia.
  rewrite uint64_small by lia. done.
Qed.

Lemma cutoff_bits bitSize :
  1 ≤ bitSize ≤ 64 →
  strconv.uint64 (Z.shiftl 1 (bitSize - 1)) = 2 ^ (bitSize - 1).
Proof.
  intros H. rewrite Z.shiftl_1_l.
  assert (2 ^ (bitSize - 1) ≤ 2 ^ 63) by (apply Z.pow_le_mono_r; lia).
  assert (0 < 2 ^ (bitSize - 1)) by (apply Z.pow_pos_nonneg; lia).
  assert (2 ^ 63 < 2 ^ 64) by done.
  rewrite uint64_small by lia. done.
Qed.

(** [ParseUint] at a bit size from 1 to 64 is the digit loop under the
    largest value of that size. *)
Lemma ParseUint_digits s bitSize :
  1 ≤ bitSize ≤ 64 →
  s ≠ "" →
  strconv.ParseUint s bitSize
  = match strconv.digits s (2 ^ bitSize - 1) 0 with
    | (n, None) => (n, None)
    | (n, Some k) =>
        (n, Some {| strconv.Func := "ParseUint"; strconv.Num := s;
                    strconv.Err := k |})
    end.
Proof.
  intros Hb Hs. unfold strconv.ParseUint.
  destruct (String.eqb_spec s ""); [done|].
  destruct (Z.ltb_spec bitSize 0); [lia|].
  destruct (Z.ltb_spec 64 bitSize); [lia|]. simpl.
  destruct (Z.eqb_spec bitSize 0); [lia|].
  by rewrite maxVal_bits.
Qed.

Lemma ParseUint_bound s bitSize r err :
  1 ≤ bitSize ≤ 64 →
  strconv.ParseUint s bitSize = (r, err) →
  match err with
  | None => 0 ≤ r < 2 ^ bitSize
  | Some e => if strconv.is_range (strconv.Err e) then r = 2 ^ bitSize - 1
              else r = 0
  end.
Proof.
  intros Hb. destruct (decide (s = "")) as [->|Hs].
  { by intros [= <- <-]. }
  rewrite ParseUint_digits by done.
  assert (0 < 2 ^ bitSize) by (apply Z.pow_pos_nonneg; lia).
  destruct (strconv.digits s (2 ^ bitSize - 1) 0) as [n [k|]] eqn:Hd;
    intros [= <- <-]; apply digits_bound in Hd; try lia.
  simpl. by destruct k.
Qed.

Lemma ParseInt_bound s bitSize r :
  1 ≤ bitSize ≤ 64 →
  strconv.ParseInt s bitSize = (r, None) →
  - 2 ^ (bitSize - 1) ≤ r < 2 ^ (bitSize - 1).
Proof.
  intros Hb. unfold strconv.ParseInt.
  destruct (String.eqb s ""); [done|].
  match goal with
  | |- context [let '(_, _) := ?m in _] => destruct m as [neg s']
  end.
  destruct (strconv.ParseUint s' bitSize) as [un err] eqn:Hun.
  apply ParseUint_bound in Hun; [|done].
  destruct (Z.eqb_spec bitSize 0); [lia|].
  rewrite cutoff_bits by done.
  assert (Hpow : 0 < 2 ^ (bitSize - 1) ≤ 2 ^ 63).
  { split; [apply Z.pow_pos_nonneg; lia|apply Z.pow_le_mono_r; lia]. }
  assert (Hdouble : 2 ^ bitSize = 2 * 2 ^ (bitSize - 1)).
  { rewrite <- Z.pow_succ_r by lia. f_equal. lia. }
  assert (Hun0 : 0 ≤ un).
  { destruct err as [e|]; [|lia].
    destruct (strconv.is_range (strconv.Err e)); lia. }
  destruct (match err with
            | Some e => negb (strconv.is_range (strconv.Err e))
            | None => false
            end) eqn:Hchk; [by destruct err|].
  destruct neg; simpl.
  - destruct (Z.ltb_spec (2 ^ (bitSize - 1)) un); [done|].
    intros [= <-].
    rewrite int64_neg by lia. lia.
  - destruct (Z.leb_spec (2 ^ (bitSize - 1)) un); [done|].
    intros [= <-]. rewrite int64_small by lia. lia.
Qed.

Section CoercionRange.

Context (ParseFloat : strconv.ParseFloat_t).

(** X3.  A number coerced from a string has the Go type of its column's parse
    and fits the column's width: a signed column of [b] bits gets an
    [int64] from [-2^(b-1)] to [2^(b-1) - 1], an unsigned one a [uint64]
    below [2^b], a float or decimal column a [float64]. *)
Theorem convertCkType_fits ckType p s v err :
  (ckType, p) ∈ coercionTable →
  convertCkType ParseFloat ckType (VString s) = Ok (v, err) ∨
  convertCkType ParseFloat ckType (VNumber s) = Ok (v, err) →
  match p with
  | PInt b => ∃ n, v = VInt64 n ∧ - 2 ^ (b - 1) ≤ n < 2 ^ (b - 1) ∧ b ≤ 64
  | PUint b => ∃ n, v = VUint64 n ∧ 0 ≤ n < 2 ^ b ∧ b ≤ 64
  | PFloat b => ∃ f, v = VFloat64 f
  end.
Proof.
  intros Hin Hok. unfold coercionTable in Hin.
  repeat (apply elem_of_cons in Hin as [[= -> ->]|Hin]);
    [..|by apply elem_of_nil in Hin].
  all: unfold convertCkType in Hok; simpl in Hok.
  all: try match type of Hok with
    | context [strconv.ParseInt ?x 256] =>
        destruct (ParseInt_256 x) as [e He]; rewrite He in Hok; simpl in Hok;
        by destruct Hok
    | context [strconv.ParseUint ?x 256] =>
        destruct (ParseUint_256 x) as (e & He & _); rewrite He in Hok;
        simpl in Hok; by destruct Hok
    end.
  all: match type of Hok with
    | context [parsed _ ?r] => destruct r as [n [e|]] eqn:Hparse
    end; simpl in Hok; [by destruct Hok|].
  all: try (apply ParseInt_bound in Hparse; [|lia]).
  all: try (apply ParseUint_bound in Hparse; [|lia]).
  all: exists n; destruct Hok as [[= <- <-]|[= <- <-]]; try done.
Qed.

End CoercionRange.

Lemma convertCkType_fits_witness :
  ∃ n, VInt64 (-128) = VInt64 n ∧ - 2 ^ (8 - 1) ≤ n < 2 ^ (8 - 1) ∧ 8 ≤ 64.
Proof.
  refine (convertCkType_fits rejectFloats "Int8" (PInt 8) "-128"
            (VInt64 (-128)) None _ (or_introl eq_refl)).
  unfold coercionTable. repeat constructor.
Defined.

(** ** Decimal strings *)

Lemma decimal_ge s : ∀ acc v, 0 ≤ acc → decimal s acc = Some v → acc ≤ v.
Proof.
  induction s as [|ch s IH]; intros acc v Hacc H; simpl in H.
  - injection H as <-. lia.
  - destruct ((48 <=? strconv.byte_of ch) && (strconv.byte_of ch <=? 57))
      eqn:Hdig; [|done].
    apply andb_true_iff in Hdig as [Hlo%Z.leb_le Hhi%Z.leb_le].
    apply IH in H; lia.
Qed.

(** On a string of decimal digits the digit loop computes the number the
    string writes, and reports a range error exactly when that number is
    above [maxVal]. *)
Lemma digits_decimal s : ∀ maxVal n v,
  0 ≤ n ≤ maxVal → maxVal < 2 ^ 64 →
  decimal s n = Some v →
  strconv.digits s maxVal n
  = if v <=? maxVal then (v, None) else (maxVal, Some strconv.ErrRange).
Proof.
  induction s as [|ch s IH]; intros maxVal n v Hn Hmax H.
  - simpl in H |- *. injection H as <-.
    destruct (Z.leb_spec n maxVal); [done|lia].
  - simpl in H |- *. set (c := strconv.byte_of ch) in *.
    destruct ((48 <=? c) && (c <=? 57)) eqn:Hdig; [|done].
    apply andb_true_iff in Hdig as [Hlo%Z.leb_le Hhi%Z.leb_le].
    destruct (Z.leb_spec 10 (c - 48)); [lia|].
    assert (Hge : n * 10 + (c - 48) ≤ v)
      by (apply (decimal_ge s); [lia|done]).
    change (2 ^ 64) with 18446744073709551616 in Hmax.
    change (strconv.maxUint64 `div` 10 + 1) with 1844674407370955162.
    destruct (Z.leb_spec 1844674407370955162 n).
    { destruct (Z.leb_spec v maxVal); [lia|done]. }
    assert (Hmul : strconv.uint64 (n * 10) = n * 10).
    { apply uint64_small. change (2 ^ 64) with 18446744073709551616. lia. }
    rewrite Hmul.
    destruct (Z.lt_ge_cases (n * 10 + (c - 48)) 18446744073709551616)
      as [Hfit|Hwrap].
    + rewrite (uint64_small (n * 10 + (c - 48)))
        by (change (2 ^ 64) with 18446744073709551616; lia).
      destruct (Z.ltb_spec (n * 10 + (c - 48)) (n * 10)); [lia|]. simpl.
      destruct (Z.ltb_spec maxVal (n * 10 + (c - 48))).
      * destruct (Z.leb_spec v maxVal); [lia|done].
      * apply IH; [lia|done|done].
    + assert (Hw : strconv.uint64 (n * 10 + (c - 48))
                   = n * 10 + (c - 48) - 18446744073709551616).
      { unfold strconv.uint64.
        change (2 ^ 64) with 18446744073709551616.
        symmetry. apply (Z.mod_unique _ _ 1); lia. }
      rewrite Hw.
      destruct (Z.ltb_spec (n * 10 + (c - 48) - 18446744073709551616) (n * 10));
        [|lia]. simpl.
      destruct (Z.leb_spec v maxVal); [lia|done].
Qed.

Lemma decimal_nonneg s v : decimal s 0 = Some v → 0 ≤ v.
Proof. by apply decimal_ge. Qed.

(** [ParseUint] on a string of decimal digits. *)
Lemma ParseUint_decimal s bitSize v :
  1 ≤ bitSize ≤ 64 → s ≠ "" →
  decimal s 0 = Some v →
  strconv.ParseUint s bitSize
  = if v <? 2 ^ bitSize then (v, None)
    else (2 ^ bitSize - 1, Some (strconv.rangeError "ParseUint" s)).
Proof.
  intros Hb Hs Hv. rewrite ParseUint_digits by done.
  assert (0 < 2 ^ bitSize ≤ 2 ^ 64).
  { split; [apply Z.pow_pos_nonneg; lia|apply Z.pow_le_mono_r; lia]. }
  rewrite (digits_decimal s (2 ^ bitSize - 1) 0 v) by (done || lia).
  destruct (Z.leb_spec v (2 ^ bitSize - 1)), (Z.ltb_spec v (2 ^ bitSize));
    try lia; done.
Qed.

(** [ParseInt] on a string of decimal digits, bare or after a minus
    sign. *)
Lemma ParseInt_decimal s bitSize v :
  2 ≤ bitSize ≤ 64 → s ≠ "" →
  decimal s 0 = Some v →
  strconv.ParseInt s bitSize
  = (if v <? 2 ^ (bitSize - 1) then (v, None)
     else (2 ^ (bitSize - 1) - 1, Some (strconv.rangeError "ParseInt" s))) ∧
  strconv.ParseInt (String "-" s) bitSize
  = (if v <=? 2 ^ (bitSize - 1) then (- v, None)
     else (- 2 ^ (bitSize - 1),
           Some (strconv.rangeError "ParseInt" (String "-" s)))).
Proof.
  intros Hb Hs Hv.
  pose proof (decimal_nonneg s v Hv) as Hv0.
  assert (Hpow : 2 ≤ 2 ^ (bitSize - 1) ≤ 2 ^ 63).
  { split; [|apply Z.pow_le_mono_r; lia].
    change 2 with (2 ^ 1) at 1. apply Z.pow_le_mono_r; lia. }
  assert (Hdouble : 2 ^ bitSize = 2 * 2 ^ (bitSize - 1)).
  { rewrite <- Z.pow_succ_r by lia. f_equal. lia. }
  assert (H63 : 2 ^ 63 = 9223372036854775808) by done.
  assert (Hsign : ∀ r, s = String "+" r → False).
  { intros r ->. simpl in Hv. done. }
  assert (Hminus : ∀ r, s = String "-" r → False).
  { intros r ->. simpl in Hv. done. }
  split.
  - unfold strconv.ParseInt.
    destruct (String.eqb_spec s ""); [done|].
    assert (Hstrip :
      match s with
      | String "+" rest => (false, rest)
      | String "-" rest => (true, rest)
      | _ => (false, s)
      end = (false, s)).
    { destruct s as [|a r]; [done|].
      destruct (decide (a = "+"%char)) as [->|Hp]; [by destruct (Hsign r)|].
      destruct (decide (a = "-"%char)) as [->|Hm]; [by destruct (Hminus r)|].
      destruct a as [[] [] [] [] [] [] [] []]; done. }
    rewrite Hstrip, (ParseUint_decimal s bitSize v) by (done || lia).
    destruct (Z.eqb_spec bitSize 0); [lia|].
    rewrite cutoff_bits by lia.
    destruct (Z.ltb_spec v (2 ^ bitSize)); simpl.
    + destruct (Z.leb_spec (2 ^ (bitSize - 1)) v),
        (Z.ltb_spec v (2 ^ (bitSize - 1))); try lia; simpl.
      * by rewrite int64_small by lia.
      * by rewrite int64_small by lia.
    + destruct (Z.leb_spec (2 ^ (bitSize - 1)) (2 ^ bitSize - 1)); [|lia].
      destruct (Z.ltb_spec v (2 ^ (bitSize - 1))); [lia|]. simpl.
      by rewrite int64_small by lia.
  - unfold strconv.ParseInt. simpl String.eqb.
    rewrite (ParseUint_decimal s bitSize v) by (done || lia).
    destruct (Z.eqb_spec bitSize 0); [lia|].
    rewrite cutoff_bits by lia.
    destruct (Z.ltb_spec v (2 ^ bitSize)); simpl.
    + destruct (Z.ltb_spec (2 ^ (bitSize - 1)) v),
        (Z.leb_spec v (2 ^ (bitSize - 1))); try lia; simpl.
      * by rewrite int64_neg by lia.
      * by rewrite int64_neg by lia.
    + destruct (Z.ltb_spec (2 ^ (bitSize - 1)) (2 ^ bitSize - 1)); [|lia].
      destruct (Z.leb_spec v (2 ^ (bitSize - 1))); [lia|]. simpl.
      by rewrite int64_neg by lia.
Qed.

Section CoercionDecimal.

Context (ParseFloat : strconv.ParseFloat_t).

(** X4.  On an integer column of 8 to 64 bits, a string of decimal digits, as a
    [json.Number] or as a string, is coerced to the number it writes when
    that number fits the column, and ends the process when it does not;
    on a signed column the same holds for the digits after a minus sign,
    down to [-2^(b-1)]. *)
Theorem convertCkType_decimal ckType p (mk : string → value) s v :
  (ckType, p) ∈ coercionTable →
  mk = VString ∨ mk = VNumber →
  s ≠ "" →
  decimal s 0 = Some v →
  match p with
  | PUint b =>
      b ≤ 64 →
      convertCkType ParseFloat ckType (mk s)
      = if v <? 2 ^ b then Ok (VUint64 v, None) else Fatal
  | PInt b =>
      b ≤ 64 →
      convertCkType ParseFloat ckType (mk s)
      = (if v <? 2 ^ (b - 1) then Ok (VInt64 v, None) else Fatal) ∧
      convertCkType ParseFloat ckType (mk (String "-" s))
      = (if v <=? 2 ^ (b - 1) then Ok (VInt64 (- v), None) else Fatal)
  | PFloat _ => True
  end.
Proof.
  intros Hin Hmk Hs Hv. unfold coercionTable in Hin.
  repeat (apply elem_of_cons in Hin as [[= -> ->]|Hin]);
    [..|by apply elem_of_nil in Hin].
  all: try done; try (intros; lia); intros _.
  all: unfold convertCkType; destruct Hmk as [-> | ->]; simpl.
  all: try match goal with
       | |- context [strconv.ParseInt (String _ ?x) ?b] =>
           destruct (ParseInt_decimal x b v ltac:(lia) Hs Hv) as [-> ->]
       | |- context [strconv.ParseUint ?x ?b] =>
           rewrite (ParseUint_decimal x b v) by (done || lia)
       end.
  all: simpl.
  all: repeat match goal with
       | |- context [?a <? ?b] => destruct (a <? b)
       | |- context [?a <=? ?b] => destruct (a <=? b)
       end; done.
Qed.

End CoercionDecimal.

Lemma convertCkType_decimal_witness :
  convertCkType rejectFloats "UInt8" (VNumber "255") = Ok (VUint64 255, None) ∧
  convertCkType rejectFloats "UInt8" (VNumber "256") = Fatal ∧
  convertCkType rejectFloats "Int8" (VString "-128") = Ok (VInt64 (-128), None).
Proof.
  assert (Hu : ("UInt8", PUint 8) ∈ coercionTable)
    by (unfold coercionTable; repeat constructor).
  assert (Hi : ("Int8", PInt 8) ∈ coercionTable)
    by (unfold coercionTable; repeat constructor).
  split_and!.
  - exact (convertCkType_decimal rejectFloats "UInt8" (PUint 8) VNumber "255"
             255 Hu (or_intror eq_refl) ltac:(discriminate) eq_refl
             ltac:(simpl; lia)).
  - exact (convertCkType_decimal rejectFloats "UInt8" (PUint 8) VNumber "256"
             256 Hu (or_intror eq_refl) ltac:(discriminate) eq_refl
             ltac:(simpl; lia)).
  - exact (proj2 (convertCkType_decimal rejectFloats "Int8" (PInt 8) VString
             "128" 128 Hi (or_introl eq_refl) ltac:(discriminate) eq_refl
             ltac:(simpl; lia))).
Defined.

(** ** The database of the table *)

Lemma Split_length s sep : length (Split s sep) = S (occurrences sep s).
Proof.
  induction s as [|ch s IH]; [done|]. simpl.
  destruct (Ascii.eqb ch sep); simpl; [by rewrite IH|].
  destruct (Split s sep) as [|part parts]; simpl in *; [done|lia].
Qed.

Lemma Split_no_sep s sep : occurrences sep s = O → Split s sep = [s].
Proof.
  induction s as [|ch s IH]; [done|]. simpl.
  destruct (Ascii.eqb ch sep); [done|]. simpl. intros H. by rewrite IH.
Qed.

Lemma Split_app a b sep :
  occurrences sep a = O →
  Split (a +:+ String sep b) sep = a :: Split b sep.
Proof.
  induction a as [|ch a IH]; simpl.
  - intros _. by rewrite Ascii.eqb_refl.
  - destruct (Ascii.eqb ch sep); [done|]. simpl. intros H. by rewrite IH.
Qed.

(** X5.  [getDatabase] returns the part before the dot of a table name with
    exactly one dot, also when that part is empty, and ["default"] for
    every other name: one without dot, or with two dots or more. *)
Theorem getDatabase_one_dot :
  (∀ db tbl, occurrences "." db = O → occurrences "." tbl = O →
             getDatabase (db +:+ String "." tbl) = db) ∧
  (∀ table, occurrences "." table ≠ 1%nat → getDatabase table = "default").
Proof.
  split.
  - intros db tbl Hdb Htbl. unfold getDatabase.
    by rewrite Split_app, (Split_no_sep tbl).
  - intros table Hdots. unfold getDatabase.
    pose proof (Split_length table ".") as Hlen.
    destruct (Split table ".") as [|a [|b [|c l]]]; try done.
    simpl in Hlen. lia.
Qed.

(** ** Fetching the schema *)

Lemma replica_S sel j : replica sel (S j) = replica (Next sel).2 j.
Proof. done. Qed.

(** The loop of [setTableDesc] skips the replicas whose query fails and
    ends at the first that answers. *)
Lemma setTableDesc_loop_first drv q k : ∀ n sel db rows,
  (k < n)%nat →
  (∀ j, (j < k)%nat →
     ∃ dbj, replica sel j = Some dbj ∧ Query drv dbj q = None) →
  replica sel k = Some db →
  Query drv db q = Some rows →
  setTableDesc_loop drv q n sel
  = match Columns rows with
    | None => Fatal
    | Some columns =>
        desc ← scanRows columns (Scanned rows) ∅; Ok (desc, advance (S k) sel)
    end.
Proof.
  induction k as [|k IH]; intros n sel db rows Hn Hfail Hdb Hrows;
    (destruct n as [|n]; [lia|]); cbn [setTableDesc_loop].
  - unfold replica in Hdb. cbn [advance] in Hdb |- *.
    destruct (Next sel) as [nextdb sel1]. simpl in Hdb |- *.
    by rewrite Hdb, Hrows.
  - destruct (Hfail O ltac:(lia)) as (db0 & Hdb0 & Hq0).
    unfold replica in Hdb0. cbn [advance] in Hdb0.
    assert (Hrest : ∀ j, replica sel (S j) = replica (Next sel).2 j) by done.
    cbn [advance]. rewrite Hrest in Hdb.
    assert (Hfail' : ∀ j, (j < k)%nat →
      ∃ dbj, replica (Next sel).2 j = Some dbj ∧ Query drv dbj q = None).
    { intros j Hj. rewrite <- Hrest. apply Hfail. lia. }
    destruct (Next sel) as [nextdb sel1]. simpl in Hdb0, Hdb, Hfail' |- *.
    rewrite Hdb0, Hq0. apply (IH n sel1 db rows); [lia|done..].
Qed.

(** X6.  [setTableDesc] takes the description from the first replica, in the
    selector's order, whose describe query returns rows: the replicas
    before it, whose query failed, are skipped, those after it are not
    asked, and the selector is left after that replica.  A result set whose
    columns cannot be read ends the process. *)
Theorem setTableDesc_first_answer drv table sel k db rows :
  (k < Size sel)%nat →
  (∀ j, (j < k)%nat →
     ∃ dbj, replica sel j = Some dbj ∧
            Query drv dbj ("desc table " +:+ table) = None) →
  replica sel k = Some db →
  Query drv db ("desc table " +:+ table) = Some rows →
  setTableDesc drv table sel
  = match Columns rows with
    | None => Fatal
    | Some columns =>
        desc ← scanRows columns (Scanned rows) ∅; Ok (desc, advance (S k) sel)
    end.
Proof.
  intros Hk Hfail Hdb Hrows. unfold setTableDesc.
  by apply (setTableDesc_loop_first drv _ k (Size sel) sel db rows).
Qed.

Lemma descMapOf_notin columns : ∀ values m c,
  c ∉ columns → descMapOf columns values m !! c = m !! c.
Proof.
  induction columns as [|c0 columns IH]; intros values m c Hc; [done|].
  destruct values as [|v values]; [done|]. simpl.
  apply not_elem_of_cons in Hc as [Hne Hc].
  rewrite IH by done. by rewrite lookup_insert_ne.
Qed.

(** The description map of a row holds, under each header, the value scanned
    at the header's position, with an enumerated type cut to its tag. *)
Lemma descMapOf_lookup columns : ∀ values m i c v,
  NoDup columns →
  columns !! i = Some c →
  values !! i = Some v →
  descMapOf columns values m !! c
  = Some (if String.eqb c "type" then
            if String.prefix "Enum16" v then "Enum16"
            else if String.prefix "Enum8" v then "Enum8"
            else v
          else v).
Proof.
  induction columns as [|c0 columns IH]; intros values m i c v Hnd Hc Hv;
    [done|].
  destruct values as [|v0 values]; [by destruct i|].
  apply NoDup_cons in Hnd as [Hc0 Hnd].
  destruct i as [|i]; simpl in Hc, Hv |- *.
  - injection Hc as ->. injection Hv as ->.
    rewrite descMapOf_notin by done. by rewrite lookup_insert_eq.
  - by apply (IH values _ i).
Qed.

Section EnumFacts.

Context (ParseFloat : strconv.ParseFloat_t).

(** X7.  A row whose type column starts with [Enum8] or [Enum16], whatever
    values the type lists after it, is described by the bare tag, and a
    column of that description without default expression gets the empty
    string as its default. *)
Theorem enum_row_default columns values i v :
  NoDup columns →
  columns !! i = Some "type" →
  values !! i = Some v →
  String.prefix "Enum8" v || String.prefix "Enum16" v = true →
  Type_ (rowDescOf (descMapOf columns values ∅)) ∈ enumTypes ∧
  typeDefault ParseFloat (Type_ (rowDescOf (descMapOf columns values ∅))) None
  = Ok (Some (VString "")).
Proof.
  intros Hnd Hc Hv Hpre. unfold rowDescOf. simpl.
  rewrite (descMapOf_lookup columns values ∅ i "type" v) by done. simpl.
  destruct (String.prefix "Enum16" v).
  - split; [|done]. unfold enumTypes. repeat constructor.
  - simpl in Hpre. rewrite orb_false_r in Hpre. rewrite Hpre.
    split; [|done]. unfold enumTypes. repeat constructor.
Qed.

End EnumFacts.

(** ** Building the default table *)

Section DefaultsMore.

Context (ParseFloat : strconv.ParseFloat_t).

Lemma typeDefault_no_panic ty lit : typeDefault ParseFloat ty lit ≠ Panic.
Proof.
  unfold typeDefault.
  repeat match goal with
         | |- context [if ?b then _ else _] => destruct b
         end;
    repeat match goal with
           | |- context [match ?x with _ => _ end] => destruct x
           end; done.
Qed.

Lemma columnEntry_no_panic d : columnEntry ParseFloat d ≠ Panic.
Proof.
  unfold columnEntry, defaultLiteral.
  repeat match goal with
         | |- context [if String.eqb ?a ?b then _ else _] =>
             destruct (String.eqb a b)
         end; simpl; try done; apply typeDefault_no_panic.
Qed.

(** The loop of [setColumnDefault] in terms of its columns: it ends the
    process when some column does, and otherwise gives each column the
    entry computed for it. *)
Lemma columnDefaults_cases desc :
  (columnDefaults ParseFloat desc = Fatal ∧
   ∃ name d, desc !! name = Some d ∧ columnEntry ParseFloat d = Fatal) ∨
  (∃ dv, columnDefaults ParseFloat desc = Ok dv ∧
         ∀ name d, desc !! name = Some d →
                   columnEntry ParseFloat d ≠ Fatal).
Proof.
  unfold columnDefaults.
  apply (map_fold_weak_ind (λ r m,
    (r = Fatal ∧
     ∃ name d, m !! name = Some d ∧ columnEntry ParseFloat d = Fatal) ∨
    (∃ dv, r = Ok dv ∧
           ∀ name d, m !! name = Some d →
                     columnEntry ParseFloat d ≠ Fatal))).
  - right. exists ∅. split; [done|]. intros name d. by rewrite lookup_empty.
  - intros i d m r Hi [[-> (name & d' & Hd' & Hbad)]|(dv & -> & Hgood)].
    + left. split; [done|]. exists name, d'. split; [|done].
      rewrite lookup_insert_ne; [done|]. intros ->. congruence.
    + unfold columnDefault. simpl.
      pose proof (columnEntry_no_panic d) as Hnp.
      unfold columnEntry in Hnp |- *.
      destruct (defaultLiteral d) as [lit| |] eqn:Hlit; simpl in Hnp |- *.
      * destruct (typeDefault ParseFloat (Type_ d) lit) as [entry| |] eqn:Hty;
          simpl.
        -- right. eexists. split; [done|]. intros name d' Hd'.
           destruct (decide (i = name)) as [->|Hne].
           ++ rewrite lookup_insert_eq in Hd'. injection Hd' as <-.
              unfold columnEntry. rewrite Hlit. simpl. by rewrite Hty.
           ++ rewrite lookup_insert_ne in Hd' by done. by apply (Hgood name).
        -- left. split; [done|]. exists i, d.
           rewrite lookup_insert_eq. unfold columnEntry.
           rewrite Hlit. simpl. by rewrite Hty.
        -- done.
      * left. split; [done|]. exists i, d.
        rewrite lookup_insert_eq. unfold columnEntry. by rewrite Hlit.
      * done.
Qed.

(** X8.  The default table is built unless a column ends the process: the loop
    of [setColumnDefault] is fatal exactly when some described column has
    a default kind other than DEFAULT or none (MATERIALIZED and ALIAS
    among them), or a numeric DEFAULT literal that does not parse; and it
    never panics. *)
Theorem columnDefaults_fatal_iff desc :
  (columnDefaults ParseFloat desc = Fatal ↔
   ∃ name d, desc !! name = Some d ∧ columnEntry ParseFloat d = Fatal) ∧
  columnDefaults ParseFloat desc ≠ Panic ∧
  (∀ d, columnEntry ParseFloat d = Fatal ↔
     (DefaultType d ≠ "DEFAULT" ∧ DefaultType d ≠ "") ∨
     (DefaultType d = "DEFAULT" ∧
      ((Type_ d ∈ integerTypes ∧
        (strconv.ParseInt (DefaultExpression d) 64).2 ≠ None) ∨
       (Type_ d ∈ floatTypes ∧
        (ParseFloat (DefaultExpression d) 64).2 ≠ None)))).
Proof.
  split_and!.
  - destruct (columnDefaults_cases desc)
      as [[-> Hbad]|(dv & -> & Hgood)]; split; try done.
    intros (name & d & Hd & Hbad). by destruct (Hgood name d Hd).
  - by destruct (columnDefaults_cases desc) as [[-> _]|(dv & -> & _)].
  - intros d. unfold columnEntry, defaultLiteral.
    destruct (String.eqb_spec (DefaultType d) "DEFAULT") as [Hk|Hk].
    + simpl. split.
      * intros Hf. right. split; [done|].
        unfold typeDefault, oneOf in Hf. simpl in Hf.
        repeat match type of Hf with
          | (if ?b || _ then _ else _) = _ => destruct b eqn:?; simpl in Hf
          | (if ?b then _ else _) = _ => destruct b eqn:?; simpl in Hf
          end; try done.
        all: try (left; split;
          [ match goal with
            | H : String.eqb _ _ = true |- _ =>
                apply String.eqb_eq in H; rewrite H;
                unfold integerTypes; by repeat constructor
            end
          | by destruct (strconv.ParseInt _ _) as [? [?|]] ]).
        all: right; split;
          [ match goal with
            | H : String.eqb _ _ = true |- _ =>
                apply String.eqb_eq in H; rewrite H;
                unfold floatTypes; by repeat constructor
            end
          | by destruct (ParseFloat _ _) as [? [?|]] ].
      * intros [[Hne _]|[_ [[Hty Herr]|[Hty Herr]]]]; [done| |].
        -- unfold integerTypes in Hty.
           repeat (apply elem_of_cons in Hty as [->|Hty]);
             [..|by apply elem_of_nil in Hty];
             unfold typeDefault; simpl;
             by destruct (strconv.ParseInt _ _) as [? [?|]].
        -- unfold floatTypes in Hty.
           repeat (apply elem_of_cons in Hty as [->|Hty]);
             [..|by apply elem_of_nil in Hty];
             unfold typeDefault; simpl;
             by destruct (ParseFloat _ _) as [? [?|]].
    + destruct (String.eqb (DefaultType d) "MATERIALIZED") eqn:Hm.
      { simpl. split; [|done]. intros _. left. split; [done|].
        apply String.eqb_eq in Hm. by rewrite Hm. }
      destruct (String.eqb (DefaultType d) "ALIAS") eqn:Ha.
      { simpl. split; [|done]. intros _. left. split; [done|].
        apply String.eqb_eq in Ha. by rewrite Ha. }
      destruct (String.eqb_spec (DefaultType d) "") as [He|He]; simpl.
      * split.
        -- intros Hf. exfalso. revert Hf. unfold typeDefault, oneOf. simpl.
           repeat match goal with
             | |- context [if ?b then _ else _] => destruct b
             end; done.
        -- intros [[_ Hne]|[Hd _]]; done.
      * split; [|done]. intros _. by left.
Qed.

End DefaultsMore.

Section LiteralDefaults.

Context (ParseFloat : strconv.ParseFloat_t).

(** X9.  For a column with a DEFAULT expression the table takes the expression
    itself on a string column and the parsed number on a numeric one: an
    integer of any width is parsed as a signed 64-bit integer, a float as a
    64-bit float.  Every other supported type ignores the expression and
    gets the default of a column without one. *)
Theorem columnDefaults_literal desc dv name d :
  columnDefaults ParseFloat desc = Ok dv →
  desc !! name = Some d →
  DefaultType d = "DEFAULT" →
  (Type_ d ∈ stringTypes →
     dv !! name = Some (VString (DefaultExpression d))) ∧
  (Type_ d ∈ integerTypes →
     (strconv.ParseInt (DefaultExpression d) 64).2 = None ∧
     dv !! name
     = Some (VInt64 (strconv.ParseInt (DefaultExpression d) 64).1)) ∧
  (Type_ d ∈ floatTypes →
     (ParseFloat (DefaultExpression d) 64).2 = None ∧
     dv !! name = Some (VFloat64 (ParseFloat (DefaultExpression d) 64).1)) ∧
  (Type_ d ∈ temporalTypes → dv !! name = Some (VTime 0 0)) ∧
  (Type_ d = "IPv4" → dv !! name = Some (VString "0.0.0.0")) ∧
  (Type_ d = "IPv6" → dv !! name = Some (VString "::")) ∧
  (Type_ d ∈ enumTypes → dv !! name = Some (VString "")) ∧
  (∀ elem, (Type_ d, elem) ∈ arrayTypes →
           dv !! name = Some (VArray elem [])).
Proof.
  intros Hdv Hd Hkind.
  pose proof (columnDefaults_lookup ParseFloat desc dv name Hdv) as H.
  rewrite Hd in H. destruct H as (lit & Hlit & Hty).
  unfold defaultLiteral in Hlit. rewrite Hkind in Hlit. simpl in Hlit.
  injection Hlit as <-.
  split_and!.
  - intros H. unfold stringTypes in H.
    repeat (apply elem_of_cons in H as [H|H];
            [rewrite H in Hty; by injection Hty|]).
    by apply elem_of_nil in H.
  - intros H. unfold integerTypes in H.
    repeat (apply elem_of_cons in H as [H|H];
            [rewrite H in Hty; unfold typeDefault in Hty; simpl in Hty;
             destruct (strconv.ParseInt (DefaultExpression d) 64)
               as [i [e|]]; [done|]; by injection Hty|]).
    by apply elem_of_nil in H.
  - intros H. unfold floatTypes in H.
    repeat (apply elem_of_cons in H as [H|H];
            [rewrite H in Hty; unfold typeDefault in Hty; simpl in Hty;
             destruct (ParseFloat (DefaultExpression d) 64)
               as [i [e|]]; [done|]; by injection Hty|]).
    by apply elem_of_nil in H.
  - intros H. unfold temporalTypes in H.
    repeat (apply elem_of_cons in H as [H|H];
            [rewrite H in Hty; by injection Hty|]).
    by apply elem_of_nil in H.
  - intros H. rewrite H in Hty. by injection Hty.
  - intros H. rewrite H in Hty. by injection Hty.
  - intros H. unfold enumTypes in H.
    repeat (apply elem_of_cons in H as [H|H];
            [rewrite H in Hty; by injection Hty|]).
    by apply elem_of_nil in H.
  - intros elem H. unfold arrayTypes in H.
    repeat (apply elem_of_cons in H as [[= H ->]|H];
            [rewrite H in Hty; by injection Hty|]).
    by apply elem_of_nil in H.
Qed.

(** Which names have an entry in the default table. *)
Lemma columnDefaults_entries desc dv name :
  columnDefaults ParseFloat desc = Ok dv →
  (is_Some (dv !! name) ↔
   ∃ d, desc !! name = Some d ∧ Type_ d ∈ defaultedTypes).
Proof.
  intros Hdv.
  pose proof (columnDefaults_lookup ParseFloat desc dv name Hdv) as H.
  destruct (desc !! name) as [d|] eqn:Hd.
  - destruct H as (lit & Hlit & Hty).
    destruct (decide (Type_ d ∈ defaultedTypes)) as [Hin|Hout].
    + split; [intros _; by exists d|]. intros _.
      revert Hty. generalize (dv !! name). intros entry Hty.
      unfold defaultedTypes, stringTypes, temporalTypes, integerTypes,
        floatTypes, arrayTypes, enumTypes in Hin. simpl in Hin.
      repeat (apply elem_of_cons in Hin as [Hin|Hin];
        [rewrite Hin in Hty; unfold typeDefault in Hty; simpl in Hty;
         repeat match type of Hty with
           | match ?x with _ => _ end = _ => destruct x
           end; by simplify_eq|]).
      by apply elem_of_nil in Hin.
    + rewrite typeDefault_outside in Hty by done. injection Hty as <-.
      split; [by intros [? ?]|]. by intros (d' & [= <-] & Hin).
  - rewrite H. split; [by intros [? ?]|]. by intros (d' & ? & _).
Qed.

(** X10.  The default table has an entry exactly for the described columns whose
    type is one the table supports. *)
Theorem columnDefaults_domain desc dv name :
  columnDefaults ParseFloat desc = Ok dv →
  (is_Some (dv !! name) ↔
   ∃ d, desc !! name = Some d ∧ Type_ d ∈ defaultedTypes).
Proof. apply columnDefaults_entries. Qed.

End LiteralDefaults.

(** ** The output built at the start *)

Lemma Next_hosts sel : hosts (Next sel).2 = hosts sel.
Proof. done. Qed.

Lemma setTableDesc_loop_hosts drv q n : ∀ sel desc sel',
  setTableDesc_loop drv q n sel = Ok (desc, sel') →
  hosts sel' = hosts sel.
Proof.
  induction n as [|n IH]; intros sel desc sel' H; cbn [setTableDesc_loop] in H.
  - by injection H as _ <-.
  - pose proof (Next_hosts sel) as Hh.
    destruct (Next sel) as [[db|] sel1]; [|done]. simpl in Hh.
    destruct (Query drv db q) as [rows|].
    + destruct (Columns rows) as [columns|]; [|done].
      destruct (scanRows columns (Scanned rows) ∅) as [desc1| |]; try done.
      simpl in H. by injection H as _ <-.
    + apply IH in H. congruence.
Qed.

Section StartupFacts.

Context (ParseFloat : strconv.ParseFloat_t).

(** X11.  The output [newClickhouseOutput] returns is consistent: the fields are
    the described columns, each once, and as many as [fieldsLength]; the
    insert statement is the one of these fields; every default belongs to a
    described column; buffer and channel are empty; the selector holds the
    reachable replicas. *)
Theorem newClickhouseOutput_consistent drv cfg dbs c :
  newClickhouseOutput ParseFloat drv cfg dbs = Ok c →
  wellFormed c ∧
  NoDup (fields c) ∧
  (∀ field, field ∈ fields c ↔ is_Some (desc c !! field)) ∧
  fieldsLength c = size (desc c) ∧
  query c = insertQuery (cfg_table cfg) (fields c) ∧
  (∀ name, is_Some (defaultValue c !! name) → is_Some (desc c !! name)) ∧
  events c = [] ∧ bulkChan c = [] ∧ execution_id c = 0 ∧
  0 ≤ concurrent c ∧
  hosts (dbSelector c) = dbs ∧ dbs ≠ [].
Proof.
  unfold newClickhouseOutput. destruct dbs as [|db dbs]; [done|].
  unfold setColumnDefault, setTableDesc.
  destruct (setTableDesc_loop _ _ _ _) as [[dsc sel]| |] eqn:Hloop; try done.
  simpl.
  destruct (columnDefaults ParseFloat dsc) as [dv| |] eqn:Hdv; try done.
  simpl. destruct (Z.ltb_spec (cfg_concurrent cfg) 0); [done|].
  intros [= <-]. simpl.
  assert (Hfields : ∀ field,
    field ∈ (map_to_list dsc).*1 ↔ is_Some (dsc !! field)).
  { intros field. rewrite list_elem_of_fmap. split.
    - intros ([k d] & -> & Hin). apply elem_of_map_to_list in Hin. by exists d.
    - intros [d Hd]. exists (field, d). split; [done|].
      by apply elem_of_map_to_list. }
  split_and!; try done.
  - split; [done|]. simpl. intros field. apply Hfields.
  - apply NoDup_fst_map_to_list.
  - by rewrite length_fmap, length_map_to_list.
  - intros name Hsome.
    destruct (columnDefaults_entries ParseFloat dsc dv name Hdv) as [Hd _].
    destruct (Hd Hsome) as (d & Hdesc & _). by exists d.
  - by apply setTableDesc_loop_hosts in Hloop.
Qed.

Lemma convertCkType_no_panic ckType val :
  convertCkType ParseFloat ckType val ≠ Panic.
Proof.
  unfold convertCkType.
  match goal with
  | |- match ?sw with _ => _ end ≠ _ => destruct sw as [o|[e|]]
  end; done.
Qed.

Lemma argFor_no_panic c (event : Event) field :
  is_Some (desc c !! field) → argFor ParseFloat c event field ≠ Panic.
Proof.
  intros [ct Hct]. unfold argFor. rewrite Hct.
  pose proof (λ v, convertCkType_no_panic (Type_ ct) v) as Hnp.
  destruct (event !! field) as [v1|].
  - destruct v1; try (by destruct (defaultValue c !! field));
      match goal with
      | |- context [convertCkType ParseFloat _ ?v] =>
          specialize (Hnp v);
          by destruct (convertCkType ParseFloat (Type_ ct) v) as [[??]| |]
      end.
  - by destruct (defaultValue c !! field).
Qed.

Lemma fillArgs_no_panic c (event : Event) fs : ∀ i args,
  (∀ field, field ∈ fs → is_Some (desc c !! field)) →
  (i + length fs ≤ length args)%nat →
  fillArgs ParseFloat c event fs i args ≠ Panic ∧
  ∀ args', fillArgs ParseFloat c event fs i args = Ok args' →
           length args' = length args.
Proof.
  induction fs as [|field fs IH]; intros i args Hdesc Hlen; simpl.
  - split; [done|]. by intros args' [= <-].
  - pose proof (argFor_no_panic c event field
                  (Hdesc field ltac:(by left))) as Hnp.
    destruct (argFor ParseFloat c event field) as [v| |]; simpl; try done.
    simpl in Hlen. destruct (decide (i < length args)%nat); [|lia].
    destruct (IH (S i) (<[i:=v]> args)) as [Hp Hl].
    + intros f Hf. apply Hdesc. by right.
    + rewrite length_insert. lia.
    + split; [done|]. intros args' Hok. rewrite (Hl args' Hok).
      apply length_insert.
Qed.

(** X12.  On a well-formed output the argument row of a record is built without
    panic: the result is a row with one argument per field, or the process
    ends because the coercion of a field that is present ended it. *)
Theorem buildArgs_well_formed c (event : Event) :
  wellFormed c →
  buildArgs ParseFloat c event ≠ Panic ∧
  (∀ args, buildArgs ParseFloat c event = Ok args →
           length args = fieldsLength c ∧
           ∀ i field, fields c !! i = Some field →
             ∃ v, argFor ParseFloat c event field = Ok v ∧
                  args !! i = Some v) ∧
  (buildArgs ParseFloat c event = Fatal →
   ∃ field v1 ct,
     field ∈ fields c ∧ event !! field = Some v1 ∧
     desc c !! field = Some ct ∧
     convertCkType ParseFloat (Type_ ct) v1 = Fatal).
Proof.
  intros [Hlen Hdesc]. unfold buildArgs.
  destruct (fillArgs_no_panic c event (fields c) O
              (replicate (fieldsLength c) VNil) Hdesc) as [Hnp Hl].
  { rewrite length_replicate. lia. }
  split_and!; [done| |].
  - intros args Hok. split.
    + by rewrite (Hl args Hok), length_replicate.
    + intros i field Hi.
      apply fillArgs_lookup in Hok as (_ & _ & Hup).
      destruct (Hup i field Hi) as (v & Hv & Hlook). by exists v.
  - clear Hnp Hl Hlen. revert Hdesc.
    generalize (replicate (fieldsLength c) VNil) O.
    induction (fields c) as [|field fs IH]; intros args i Hdesc Hf;
      simpl in Hf; [done|].
    destruct (argFor ParseFloat c event field) as [v| |] eqn:Hv; simpl in Hf.
    + destruct (decide (i < length args)%nat); [|done].
      assert (Hrest : ∀ f, f ∈ fs → is_Some (desc c !! f)).
      { intros f Hin. apply Hdesc. by right. }
      destruct (IH _ _ Hrest Hf) as (f & v1 & ct & Hin & ?).
      exists f, v1, ct. split; [by right|done].
    + unfold argFor in Hv.
      destruct (event !! field) as [v1|] eqn:Hev;
        [|by destruct (defaultValue c !! field)].
      destruct (desc c !! field) as [ct|] eqn:Hct.
      * exists field, v1, ct. split; [by left|]. split; [done|].
        split; [done|].
        destruct v1; try (by destruct (defaultValue c !! field));
          by destruct (convertCkType ParseFloat (Type_ ct) _) as [[??]| |].
      * by destruct v1; destruct (defaultValue c !! field).
    + by destruct (argFor_no_panic c event field (Hdesc field ltac:(by left))).
Qed.

End StartupFacts.

(** ** More on the buffer *)

(** What a step does to the channel and to the settings of the output. *)
Lemma step_channel s l s' :
  step s l = Some s' →
  concurrent (out s') = concurrent (out s) ∧
  ((length (bulkChan (out s')) ≤ length (bulkChan (out s)))%nat ∨
   Z.of_nat (length (bulkChan (out s'))) ≤ concurrent (out s)).
Proof.
  destruct l as [e|i| | |]; simpl.
  - destruct (flushing s); [done|]. unfold Emit_locked.
    destruct (_ <? _); [intros [= <-]; simpl; by auto|].
    destruct (_ <? _); [done|]. intros [= <-]. simpl. by auto.
  - destruct (sending s !! i) as [b|]; [|done]. unfold send.
    destruct (Z.ltb_spec (Z.of_nat (length (bulkChan (out s))))
                (concurrent (out s))); [|done].
    simpl. intros [= <-]. simpl. split; [done|]. right.
    rewrite length_app. simpl. lia.
  - destruct (flushing s); [done|]. unfold flush_locked.
    destruct (0 <? _); [|intros [= <-]; by auto].
    destruct (_ <? _); [done|]. intros [= <-]. simpl. by auto.
  - destruct (flushing s) as [b|]; [|done]. unfold send.
    destruct (Z.ltb_spec (Z.of_nat (length (bulkChan (out s))))
                (concurrent (out s))); [|done].
    simpl. intros [= <-]. simpl. split; [done|]. right.
    rewrite length_app. simpl. lia.
  - destruct (bulkChan (out s)) as [|b rest]; [done|].
    intros [= <-]. simpl. split; [done|]. left. lia.
Qed.

Lemma run_channel ls : ∀ s s',
  run s ls = Some s' →
  Z.of_nat (length (bulkChan (out s))) ≤ concurrent (out s) →
  concurrent (out s') = concurrent (out s) ∧
  Z.of_nat (length (bulkChan (out s'))) ≤ concurrent (out s).
Proof.
  induction ls as [|l ls IH]; intros s s' Hrun Hle; simpl in Hrun.
  - by injection Hrun as <-.
  - destruct (step s l) as [s1|] eqn:Hstep; [|done]. simpl in Hrun.
    apply step_channel in Hstep as [Hc Hlen].
    apply IH in Hrun as [Hc' Hle']; [split; lia|]. lia.
Qed.

(** X13.  The channel never holds more batches than there are workers: a send
    goes through only while it has room. *)
Theorem bulkChan_bounded c ls s :
  bulkChan c = [] →
  0 ≤ concurrent c →
  run (start c) ls = Some s →
  Z.of_nat (length (bulkChan (out s))) ≤ concurrent c.
Proof.
  intros Hch Hc Hrun. apply run_channel in Hrun as [_ H]; [done|].
  simpl. rewrite Hch. simpl. lia.
Qed.

Lemma step_sized s l s' :
  step s l = Some s' →
  1 ≤ bulk_actions (out s) →
  Z.of_nat (length (events (out s))) < bulk_actions (out s) →
  Forall (λ b, 1 ≤ Z.of_nat (length b) ≤ bulk_actions (out s)) (batches s) →
  bulk_actions (out s') = bulk_actions (out s) ∧
  Z.of_nat (length (events (out s'))) < bulk_actions (out s) ∧
  Forall (λ b, 1 ≤ Z.of_nat (length b) ≤ bulk_actions (out s)) (batches s').
Proof.
  intros Hstep Hbulk Hlen Hall. destruct l as [e|i| | |].
  - apply step_Emit in Hstep as [Hb Hstep]. split; [done|].
    destruct (Z.ltb_spec (Z.of_nat (length (events (out s)) + 1))
                (bulk_actions (out s))); destruct Hstep as [-> ->].
    + split; [|done]. rewrite length_app. simpl. lia.
    + split; [simpl; lia|]. apply Forall_app. split; [done|].
      constructor; [|done]. rewrite length_app. simpl. lia.
  - apply step_move in Hstep as (Hb & -> & Hp); [|done]. by rewrite Hp.
  - apply step_Tick in Hstep as [Hb Hstep]. split; [done|].
    destruct (decide (events (out s) = [])) as [He|He].
    + by subst s'.
    + destruct Hstep as (_ & -> & Hp). rewrite Hp.
      split; [simpl; lia|]. apply Forall_app. split; [done|].
      constructor; [|done]. destruct (events (out s)); [done|]. simpl in *.
      lia.
  - apply step_move in Hstep as (Hb & -> & Hp); [|done]. by rewrite Hp.
  - apply step_move in Hstep as (Hb & -> & Hp); [|done]. by rewrite Hp.
Qed.

Lemma run_sized ls : ∀ s s',
  run s ls = Some s' →
  1 ≤ bulk_actions (out s) →
  Z.of_nat (length (events (out s))) < bulk_actions (out s) →
  Forall (λ b, 1 ≤ Z.of_nat (length b) ≤ bulk_actions (out s)) (batches s) →
  Z.of_nat (length (events (out s'))) < bulk_actions (out s) ∧
  Forall (λ b, 1 ≤ Z.of_nat (length b) ≤ bulk_actions (out s)) (batches s').
Proof.
  induction ls as [|l ls IH]; intros s s' Hrun Hbulk Hlen Hall;
    simpl in Hrun.
  - by injection Hrun as <-.
  - destruct (step s l) as [s1|] eqn:Hstep; [|done]. simpl in Hrun.
    apply step_sized in Hstep as (Hb & Hlen1 & Hall1); [|done..].
    rewrite <- Hb in *. by apply IH.
Qed.

(** X14.  With a capacity of at least one, the buffer always holds fewer records
    than the capacity, and every batch that left it holds at least one
    record and at most the capacity. *)
Theorem buffer_below_capacity c ls s :
  events c = [] → bulkChan c = [] →
  1 ≤ bulk_actions c →
  run (start c) ls = Some s →
  Z.of_nat (length (events (out s))) < bulk_actions c ∧
  Forall (λ b, 1 ≤ Z.of_nat (length b) ≤ bulk_actions c) (batches s).
Proof.
  intros Hev Hch Hbulk Hrun.
  apply run_sized in Hrun; simpl; try done.
  - rewrite Hev. simpl. lia.
  - unfold batches. simpl. by rewrite Hch.
Qed.

(** A step keeps the order of submission: if some arrangement of the
    batches, followed by the buffer, spells what was submitted, so does an
    arrangement of the batches after the step, followed by the new buffer,
    with the record the step submits at the end. *)
Lemma step_ordered s l s' pre :
  step s l = Some s' →
  (∃ bs, bs ≡ₚ batches s ∧ mjoin bs ++ events (out s) = pre) →
  ∃ bs, bs ≡ₚ batches s' ∧
        mjoin bs ++ events (out s') = pre ++ submitted [l].
Proof.
  intros Hstep (bs & Hbs & Hpre). destruct l as [e|i| | |].
  - apply step_Emit in Hstep as [_ Hstep].
    destruct (_ <? _); destruct Hstep as [-> ->].
    + exists bs. split; [done|]. simpl. rewrite <- Hpre.
      by rewrite <- app_assoc.
    + exists (bs ++ [events (out s) ++ [e]]). split; [by rewrite Hbs|].
      rewrite mjoin_snoc, app_nil_r, <- Hpre. simpl.
      by rewrite <- !app_assoc.
  - apply step_move in Hstep as (_ & -> & Hp); [|done].
    exists bs. split; [by rewrite Hp|]. simpl. by rewrite app_nil_r.
  - apply step_Tick in Hstep as [_ Hstep].
    destruct (decide _) as [He|He].
    + subst s'. exists bs. split; [done|]. simpl. by rewrite app_nil_r.
    + destruct Hstep as (_ & -> & Hp).
      exists (bs ++ [events (out s)]). split; [by rewrite Hp, Hbs|].
      rewrite mjoin_snoc, !app_nil_r. done.
  - apply step_move in Hstep as (_ & -> & Hp); [|done].
    exists bs. split; [by rewrite Hp|]. simpl. by rewrite app_nil_r.
  - apply step_move in Hstep as (_ & -> & Hp); [|done].
    exists bs. split; [by rewrite Hp|]. simpl. by rewrite app_nil_r.
Qed.

Lemma run_ordered ls : ∀ s s' pre,
  run s ls = Some s' →
  (∃ bs, bs ≡ₚ batches s ∧ mjoin bs ++ events (out s) = pre) →
  ∃ bs, bs ≡ₚ batches s' ∧
        mjoin bs ++ events (out s') = pre ++ submitted ls.
Proof.
  induction ls as [|l ls IH]; intros s s' pre Hrun Hpre; simpl in Hrun.
  - injection Hrun as <-. simpl. by rewrite app_nil_r.
  - destruct (step s l) as [s1|] eqn:Hstep; [|done]. simpl in Hrun.
    rewrite submitted_cons, app_assoc.
    apply (IH s1); [done|]. by apply (step_ordered s).
Qed.

(** X15.  The batches keep the order of submission: taken in some order, and
    followed by the buffer, they spell the sequence of the submitted
    records.  So every batch is a run of consecutive records, in the order
    in which they were submitted. *)
Theorem batches_in_order c ls s :
  events c = [] → bulkChan c = [] →
  run (start c) ls = Some s →
  ∃ bs, bs ≡ₚ batches s ∧ mjoin bs ++ events (out s) = submitted ls.
Proof.
  intros Hev Hch Hrun.
  apply (run_ordered ls (start c) s []); [done|].
  exists []. unfold batches. simpl. by rewrite Hch, Hev.
Qed.

(** ** Shutdown *)

Lemma drain_app ch : ∀ spawned, drain ch spawned = spawned ++ ch.
Proof.
  induction ch as [|b ch IH]; intros spawned; simpl.
  - by rewrite app_nil_r.
  - by rewrite IH, <- app_assoc.
Qed.

(** X16.  [awaitclose] leaves nothing behind: with a capacity that is not
    negative it empties the buffer and the channel and hands to
    [innerFlush] the buffered records, as one batch, and then every queued
    batch in order.  At a moment when no producer and no timer is between
    its swap and its send, the batches the workers received and those
    handed over here hold every submitted record once, and none is
    empty. *)
Theorem awaitclose_drains c ls s :
  events c = [] → bulkChan c = [] →
  0 ≤ bulk_actions c →
  run (start c) ls = Some s →
  flushing s = None → sending s = [] →
  ∃ c' spawned,
    awaitclose (out s) = Ok (c', spawned) ∧
    events c' = [] ∧ bulkChan c' = [] ∧
    spawned = (if decide (events (out s) = []) then []
               else [events (out s)]) ++ bulkChan (out s) ∧
    mjoin (taken s ++ spawned) ≡ₚ submitted ls ∧
    Forall (λ b, b ≠ []) (taken s ++ spawned).
Proof.
  intros Hev Hch Hbulk Hrun Hfl Hsend.
  apply run_conserves in Hrun as (Hb & Hp & Hf).
  assert (Hstart : batches (start c) = [])
    by (unfold batches; simpl; by rewrite Hch).
  rewrite Hstart in Hp, Hf. simpl in Hb, Hp. rewrite Hev in Hp. simpl in Hp.
  specialize (Hf ltac:(constructor)).
  unfold batches in Hp, Hf. rewrite Hfl, Hsend in Hp, Hf.
  simpl in Hp, Hf. rewrite app_nil_r in Hp, Hf.
  unfold awaitclose. rewrite !drain_app, Hb.
  destruct (events (out s)) as [|e evs] eqn:Hevs; simpl.
  - eexists _, _. split; [done|]. simpl. split_and!; try done.
    by rewrite app_nil_r in Hp.
  - destruct (Z.ltb_spec (bulk_actions c) 0); [lia|].
    eexists _, _. split; [done|]. simpl. split_and!; try done.
    + etrans; [|exact Hp]. rewrite !join_app.
      change (mjoin ((e :: evs) :: bulkChan (out s)))
        with ((e :: evs) ++ mjoin (bulkChan (out s))).
      rewrite <- !app_assoc. apply Permutation_app_head.
      apply Permutation_app_comm.
    + apply Forall_app in Hf as [Ht Hc].
      apply Forall_app. split; [done|]. by constructor.
Qed.

(** ** The properties on the examples *)

Lemma setTableDesc_first_answer_witness :
  ∃ desc, setTableDesc describingDriver "logs"
            {| hosts := [0%nat; 1%nat]; index := 0 |}
          = Ok (desc, {| hosts := [0%nat; 1%nat]; index := 0 |}) ∧
          Type_ <$> desc !! "level" = Some "Enum8".
Proof.
  assert (Hfail : ∀ j, (j < 1)%nat →
    ∃ dbj, replica {| hosts := [0%nat; 1%nat]; index := 0 |} j = Some dbj ∧
           Query describingDriver dbj ("desc table " +:+ "logs") = None).
  { intros j Hj. exists 0%nat. by replace j with 0%nat by lia. }
  rewrite (setTableDesc_first_answer describingDriver "logs"
             {| hosts := [0%nat; 1%nat]; index := 0 |} 1 1%nat exampleRows
             ltac:(unfold Size; simpl; lia) Hfail eq_refl eq_refl).
  eexists. split; vm_compute; reflexivity.
Defined.

Lemma enum_row_default_witness :
  Type_ (rowDescOf (descMapOf describeHeader
           ["level"; "Enum8('debug' = 1, 'info' = 2)"; ""; ""; ""; ""; ""] ∅))
    ∈ enumTypes ∧
  typeDefault rejectFloats
    (Type_ (rowDescOf (descMapOf describeHeader
       ["level"; "Enum8('debug' = 1, 'info' = 2)"; ""; ""; ""; ""; ""] ∅)))
    None
  = Ok (Some (VString "")).
Proof.
  apply (enum_row_default rejectFloats describeHeader _ 1
           "Enum8('debug' = 1, 'info' = 2)").
  - apply (bool_decide_unpack _). vm_compute. exact I.
  - reflexivity.
  - reflexivity.
  - reflexivity.
Defined.

Lemma columnDefaults_literal_witness :
  ∃ dv,
    columnDefaults rejectFloats literalDesc = Ok dv ∧
    dv !! "host" = Some (VString "'unknown'") ∧
    dv !! "port" = Some (VInt64 8123).
Proof.
  destruct (columnDefaults rejectFloats literalDesc) as [dv| |] eqn:Hdv;
    [|by vm_compute in Hdv..].
  exists dv. split; [done|].
  assert (Hhost : literalDesc !! "host" = Some
    {| Name := "host"; Type_ := "String"; DefaultType := "DEFAULT";
       DefaultExpression := "'unknown'" |}) by reflexivity.
  assert (Hport : literalDesc !! "port" = Some
    {| Name := "port"; Type_ := "UInt16"; DefaultType := "DEFAULT";
       DefaultExpression := "8123" |}) by reflexivity.
  split_and!.
  - refine (proj1 (columnDefaults_literal rejectFloats literalDesc dv "host" _
                     Hdv Hhost eq_refl) _).
    unfold stringTypes. repeat constructor.
  - refine (proj2 (proj1 (proj2 (columnDefaults_literal rejectFloats
                     literalDesc dv "port" _ Hdv Hport eq_refl)) _)).
    unfold integerTypes. repeat constructor.
Defined.

Lemma columnDefaults_domain_witness :
  ∃ dv, columnDefaults rejectFloats exampleDesc = Ok dv ∧
        (is_Some (dv !! "tags") ↔
         ∃ d, exampleDesc !! "tags" = Some d ∧ Type_ d ∈ defaultedTypes).
Proof.
  destruct (columnDefaults rejectFloats exampleDesc) as [dv| |] eqn:Hdv;
    [|by vm_compute in Hdv..].
  exists dv. split; [done|].
  exact (columnDefaults_domain rejectFloats exampleDesc dv "tags" Hdv).
Defined.

Lemma newClickhouseOutput_consistent_witness :
  ∃ c, newClickhouseOutput rejectFloats describingDriver exampleConfig
         [0%nat; 1%nat] = Ok c ∧
       wellFormed c ∧ NoDup (fields c) ∧
       fieldsLength c = size (desc c) ∧
       query c = insertQuery "logs" (fields c).
Proof.
  destruct (newClickhouseOutput rejectFloats describingDriver exampleConfig
              [0%nat; 1%nat]) as [c| |] eqn:Hc; [|by vm_compute in Hc..].
  exists c. split; [done|].
  destruct (newClickhouseOutput_consistent rejectFloats describingDriver
              exampleConfig [0%nat; 1%nat] c Hc)
    as (Hwf & Hnd & _ & Hsize & Hq & _).
  by split_and!.
Defined.

Lemma exampleOutput_wellFormed : wellFormed exampleOutput.
Proof.
  split; [done|]. intros field Hin. unfold exampleOutput in Hin. simpl in Hin.
  repeat (apply elem_of_cons in Hin as [->|Hin]; [by eexists|]).
  by apply elem_of_nil in Hin.
Defined.

Lemma buildArgs_well_formed_witness :
  buildArgs rejectFloats exampleOutput (exampleEvent "7") ≠ Panic ∧
  ∀ args, buildArgs rejectFloats exampleOutput (exampleEvent "7") = Ok args →
          length args = 3%nat.
Proof.
  destruct (buildArgs_well_formed rejectFloats exampleOutput
              (exampleEvent "7") exampleOutput_wellFormed)
    as (Hnp & Hok & _).
  split; [done|]. intros args Hargs. by destruct (Hok args Hargs).
Defined.

Lemma bulkChan_bounded_witness :
  ∃ s, run (start exampleOutput) exampleShutdownRun = Some s ∧
       Z.of_nat (length (bulkChan (out s))) ≤ 1.
Proof.
  destruct (run (start exampleOutput) exampleShutdownRun) as [s|] eqn:Hrun;
    [|by vm_compute in Hrun].
  exists s. split; [done|].
  exact (bulkChan_bounded exampleOutput exampleShutdownRun s eq_refl
           ltac:(simpl; lia) Hrun).
Defined.

Lemma buffer_below_capacity_witness :
  ∃ s, run (start exampleOutput) exampleShutdownRun = Some s ∧
       Z.of_nat (length (events (out s))) < 2 ∧
       Forall (λ b, 1 ≤ Z.of_nat (length b) ≤ 2) (batches s).
Proof.
  destruct (run (start exampleOutput) exampleShutdownRun) as [s|] eqn:Hrun;
    [|by vm_compute in Hrun].
  exists s. split; [done|].
  exact (buffer_below_capacity exampleOutput exampleShutdownRun s eq_refl
           eq_refl ltac:(simpl; lia) Hrun).
Defined.

Lemma batches_in_order_witness :
  ∃ s, run (start exampleOutput) exampleRun = Some s ∧
       ∃ bs, bs ≡ₚ batches s ∧
             mjoin bs ++ events (out s) = submitted exampleRun.
Proof.
  destruct (run (start exampleOutput) exampleRun) as [s|] eqn:Hrun;
    [|by vm_compute in Hrun].
  exists s. split; [done|].
  exact (batches_in_order exampleOutput exampleRun s eq_refl eq_refl Hrun).
Defined.

Lemma awaitclose_drains_witness :
  ∃ s c' spawned,
    run (start exampleOutput) exampleShutdownRun = Some s ∧
    awaitclose (out s) = Ok (c', spawned) ∧
    spawned = [[exampleEvent "3"]; [exampleEvent "1"; exampleEvent "2"]] ∧
    events c' = [] ∧ bulkChan c' = [] ∧
    mjoin (taken s ++ spawned) ≡ₚ submitted exampleShutdownRun.
Proof.
  destruct (run (start exampleOutput) exampleShutdownRun) as [s|] eqn:Hrun;
    [|by vm_compute in Hrun].
  assert (Hfl : flushing s = None).
  { vm_compute in Hrun. by injection Hrun as <-. }
  assert (Hsend : sending s = []).
  { vm_compute in Hrun. by injection Hrun as <-. }
  destruct (awaitclose_drains exampleOutput exampleShutdownRun s eq_refl
              eq_refl ltac:(simpl; lia) Hrun Hfl Hsend)
    as (c' & spawned & Hclose & He & Hc & Hsp & Hp & _).
  exists s, c', spawned. split_and!; try done.
  rewrite Hsp. vm_compute in Hrun. injection Hrun as <-.
  vm_compute. reflexivity.
Defined.
